(** * Equity research backend: chunker, vector store, ingestion, query

    A shallow embedding of [backened/backend.py] and the properties of its
    chunker ([split_text]), its vector store ([FaissStore]) and its HTTP
    handlers ([ingest], [ingest_urls], [query_endpoint], [get_meta]). *)

From Stdlib Require Import ZArith NArith Ascii String DecimalN.
From Stdlib.Strings Require Import Byte.
From stdpp Require Import base tactics option list gmap.

Open Scope Z_scope.

(** ** Python values *)

(** A Python [str] is a sequence of Unicode code points; [len] counts code
    points. *)
Abbreviation char := N (only parsing).
Abbreviation str := (list N) (only parsing).

(** String literals of the source, as code points. *)
Definition U (s : string) : str := N_of_ascii <$> list_ascii_of_string s.
Arguments U : simpl never.

Definition len {A} (l : list A) : Z := Z.of_nat (length l).

(** Exceptions the modelled code can raise. *)
Inductive exn :=
  | ValueError
  | AssertionError
  | IndexError
  | AttributeError
  | UnicodeDecodeError
  | MemoryError
  | RuntimeError
  | HTTPException (status : Z) (detail : str)
  | ExtractorError.

Inductive result (A : Type) :=
  | Ok (a : A)
  | Raise (e : exn).
Arguments Ok {A} a.
Arguments Raise {A} e.

(** [str.isspace] for one code point, which is also what [\s] matches in a
    [str] pattern: the Unicode white-space table of CPython. *)
Definition is_space (c : char) : bool :=
  (((9 <=? c) && (c <=? 13)) || ((28 <=? c) && (c <=? 32))
   || (c =? 133) || (c =? 160) || (c =? 5760)
   || ((8192 <=? c) && (c <=? 8202)) || (c =? 8232) || (c =? 8233)
   || (c =? 8239) || (c =? 8287) || (c =? 12288))%N.

(** The character class [[.!?]]. *)
Definition is_terminal (c : char) : bool :=
  ((c =? 46) || (c =? 33) || (c =? 63))%N.

Fixpoint lstrip (s : str) : str :=
  match s with
  | [] => []
  | c :: r => if is_space c then lstrip r else s
  end.

Definition rstrip (s : str) : str := reverse (lstrip (reverse s)).

(** [s.strip()] *)
Definition strip (s : str) : str := rstrip (lstrip s).

(** Index adjustment of a slice bound against a sequence of length [n]
    (positive step): negative bounds count from the end, and everything is
    clamped to [0, n]. *)
Definition slice_index (n i : Z) : Z :=
  if i <? 0 then Z.max 0 (i + n) else Z.min i n.

(** [l[a:b]]; [None] is an omitted bound. *)
Definition py_slice {A} (l : list A) (a b : option Z) : list A :=
  let n := len l in
  let lo := from_option (slice_index n) 0 a in
  let hi := from_option (slice_index n) n b in
  take (Z.to_nat (hi - lo)) (drop (Z.to_nat lo) l).

(** [range(0, stop, step)]: a zero step raises, a negative step from 0 is
    empty, and a positive step yields the multiples of [step] below
    [stop]. *)
Definition py_range0 (stop step : Z) : result (list Z) :=
  if step =? 0 then Raise ValueError
  else if step <? 0 then Ok []
  else Ok ((λ k : nat, Z.of_nat k * step) <$> seq 0 (Z.to_nat ((stop + step - 1) / step))).

(** [l[i]]: a negative index counts from the end, and an index outside
    the list raises. *)
Definition py_getitem {A} (l : list A) (i : Z) : result A :=
  let j := if i <? 0 then i + len l else i in
  if j <? 0 then Raise IndexError
  else match l !! Z.to_nat j with
       | Some x => Ok x
       | None => Raise IndexError
       end.

(** [sep.join(l)] *)
Fixpoint join (sep : str) (l : list str) : str :=
  match l with
  | [] => []
  | [x] => x
  | x :: l' => x ++ sep ++ join sep l'
  end.

(** [s.lower()] on the letters A to Z.  Its only use is the suffix test
    of [ingest], and no other code point lowers to one of the characters of
    [".pdf"] and [".csv"]. *)
Definition lower (s : str) : str :=
  (λ c, if (65 <=? c) && (c <=? 90) then c + 32 else c)%N <$> s.

(** [s.endswith(suffix)] *)
Definition endswith (s suffix : str) : bool :=
  bool_decide (length suffix ≤ length s)%nat
  && bool_decide (drop (length s - length suffix) s = suffix).

(** The decimal digits of a non-negative [int], as [f"{n}"] renders it. *)
Fixpoint uint_digits (u : Decimal.uint) : str :=
  match u with
  | Decimal.Nil => []
  | Decimal.D0 u => 48%N :: uint_digits u
  | Decimal.D1 u => 49%N :: uint_digits u
  | Decimal.D2 u => 50%N :: uint_digits u
  | Decimal.D3 u => 51%N :: uint_digits u
  | Decimal.D4 u => 52%N :: uint_digits u
  | Decimal.D5 u => 53%N :: uint_digits u
  | Decimal.D6 u => 54%N :: uint_digits u
  | Decimal.D7 u => 55%N :: uint_digits u
  | Decimal.D8 u => 56%N :: uint_digits u
  | Decimal.D9 u => 57%N :: uint_digits u
  end.

Definition decimal (n : N) : str := uint_digits (N.to_uint n).

(** ** [bytes.decode("utf-8", errors=...)] *)

Inductive error_handler := strict | ignore.

(** What the decoder does with an undecodable span: raise, or skip it and
    go on with [k], the decoding of what follows. *)
Definition on_error (h : error_handler) (k : result str) : result str :=
  match h with
  | strict => Raise UnicodeDecodeError
  | ignore => k
  end.

Definition emit (c : char) (k : result str) : result str :=
  match k with
  | Ok s => Ok (c :: s)
  | Raise e => Raise e
  end.

Definition is_continuation (b : N) : bool := ((128 <=? b) && (b <=? 191))%N.

(** CPython's UTF-8 decoder.  An invalid start byte is a span of one
    byte; a sequence broken at its second, third or fourth byte is a span
    of the one, two or three bytes before it; a sequence cut by the end of
    the input is a span up to the end. *)
Fixpoint utf8_decode (h : error_handler) (bs : list byte) : result str :=
  match bs with
  | [] => Ok []
  | b1 :: r1 =>
      let c1 := Byte.to_N b1 in
      if (c1 <? 128)%N then emit c1 (utf8_decode h r1)
      else if (c1 <? 194)%N then on_error h (utf8_decode h r1)
      else if (c1 <? 224)%N then
        match r1 with
        | [] => on_error h (Ok [])
        | b2 :: r2 =>
            let c2 := Byte.to_N b2 in
            if is_continuation c2
            then emit (N.lor (N.shiftl (N.land c1 31) 6) (N.land c2 63))
                      (utf8_decode h r2)
            else on_error h (utf8_decode h r1)
        end
      else if (c1 <? 240)%N then
        match r1 with
        | [] => on_error h (Ok [])
        | b2 :: r2 =>
            let c2 := Byte.to_N b2 in
            if negb (is_continuation c2)
               || (if (c2 <? 160)%N then (c1 =? 224)%N else (c1 =? 237)%N)
            then on_error h (utf8_decode h r1)
            else
              match r2 with
              | [] => on_error h (Ok [])
              | b3 :: r3 =>
                  let c3 := Byte.to_N b3 in
                  if is_continuation c3
                  then emit (N.lor (N.shiftl (N.land c1 15) 12)
                               (N.lor (N.shiftl (N.land c2 63) 6) (N.land c3 63)))
                            (utf8_decode h r3)
                  else on_error h (utf8_decode h r2)
              end
        end
      else if (c1 <? 245)%N then
        match r1 with
        | [] => on_error h (Ok [])
        | b2 :: r2 =>
            let c2 := Byte.to_N b2 in
            if negb (is_continuation c2)
               || (if (c2 <? 144)%N then (c1 =? 240)%N else (c1 =? 244)%N)
            then on_error h (utf8_decode h r1)
            else
              match r2 with
              | [] => on_error h (Ok [])
              | b3 :: r3 =>
                  let c3 := Byte.to_N b3 in
                  if negb (is_continuation c3)
                  then on_error h (utf8_decode h r2)
                  else
                    match r3 with
                    | [] => on_error h (Ok [])
                    | b4 :: r4 =>
                        let c4 := Byte.to_N b4 in
                        if is_continuation c4
                        then emit (N.lor (N.shiftl (N.land c1 7) 18)
                                     (N.lor (N.shiftl (N.land c2 63) 12)
                                        (N.lor (N.shiftl (N.land c3 63) 6)
                                           (N.land c4 63))))
                                  (utf8_decode h r4)
                        else on_error h (utf8_decode h r3)
                    end
              end
        end
      else on_error h (utf8_decode h r1)
  end.

(** ** The chunker *)

Definition CHUNK_SIZE : Z := 800.
Definition CHUNK_OVERLAP : Z := 150.

(** Prefix the first piece of a non-empty list of pieces with [c]. *)
Definition cons_hd (c : char) (ps : list str) : list str :=
  match ps with
  | [] => [[c]]
  | p :: ps' => (c :: p) :: ps'
  end.

(** [re.split(r'(?<=[.!?])\s+', s)]: the pattern matches a maximal run of
    white space that directly follows a sentence terminal; the pieces
    between the matches are returned, the last one possibly empty.
    [after_term] says that the previous character is a terminal,
    [skipping] that the scan is inside a match. *)
Fixpoint re_split_go (after_term skipping : bool) (s : str) : list str :=
  match s with
  | [] => [[]]
  | c :: r =>
      if is_space c then
        if skipping then re_split_go false true r
        else if after_term then [] :: re_split_go false true r
        else cons_hd c (re_split_go false false r)
      else cons_hd c (re_split_go (is_terminal c) false r)
  end.

Definition re_split (s : str) : list str := re_split_go false false s.

(** The windows [s[i:i+size]] for [i] in [range(0, len(s), size - overlap)]. *)
Definition windows (s : str) (size overlap : Z) : result (list str) :=
  match py_range0 (len s) (size - overlap) with
  | Raise e => Raise e
  | Ok starts => Ok ((λ i, py_slice s (Some i) (Some (i + size))) <$> starts)
  end.

(** [if cur: chunks.append(cur)] *)
Definition flush (chunks : list str) (cur : str) : list str :=
  match cur with
  | [] => chunks
  | _ => chunks ++ [cur]
  end.

(** The [for s in sentences] loop of [split_text], on its two variables
    [chunks] and [cur]. *)
Fixpoint split_loop (size overlap : Z) (sentences : list str)
    (chunks : list str) (cur : str) : result (list str * str) :=
  match sentences with
  | [] => Ok (chunks, cur)
  | s :: rest =>
      if len cur + len s <=? size then
        split_loop size overlap rest chunks (strip (cur ++ U " " ++ s))
      else
        let chunks := flush chunks cur in
        if len s >? size then
          match windows s size overlap with
          | Raise e => Raise e
          | Ok ws => split_loop size overlap rest (chunks ++ ws) []
          end
        else split_loop size overlap rest chunks s
  end.

Definition split_text (text : str) (size overlap : Z) : result (list str) :=
  match text with
  | [] => Ok []
  | _ =>
      let sentences := re_split (strip text) in
      match split_loop size overlap sentences [] [] with
      | Raise e => Raise e
      | Ok (chunks, cur) => Ok (flush chunks cur)
      end
  end.

(** ** Vectors, records and the object store *)

(** What a library call can run short of: a shape numpy cannot
    represent, memory, or a resource inside faiss. *)
Inductive shortage :=
  | too_big
  | no_memory
  | library_failure.

Definition shortage_exn (s : shortage) : exn :=
  match s with
  | too_big => ValueError
  | no_memory => MemoryError
  | library_failure => RuntimeError
  end.

(** The arithmetic of embeddings is numpy's and faiss's, in [float32]; it is
    kept abstract.  None of the properties below depends on a numeric
    value. *)
Class Float32 (scalar : Type) := {
  (** one row [v / (norm(v) + 1e-8)] of [embs / (np.linalg.norm(embs,
      axis=1, keepdims=True) + 1e-8)] *)
  l2_normalize : list scalar → list scalar;
  (** the inner product faiss scores with *)
  inner_product : list scalar → list scalar → scalar;
  (** strict order of scores; false whenever a score is not a number *)
  score_ltb : scalar → scalar → bool;
  (** the score of an unfilled result slot *)
  lowest : scalar;
  (** whether faiss lists the first (score, id) pair before the second:
      the higher score first; the order it gives to equal scores is its
      own *)
  ranks_before : scalar * Z → scalar * Z → bool;
  (** what a search of [n] queries for [k] neighbours runs short of, if
      anything: the wrapper allocates two result arrays of shape [(n, k)]
      with [np.empty], which raises [ValueError] for a shape that does not
      fit and [MemoryError] when memory is refused, and faiss allocates its
      own buffers *)
  search_shortage : Z → Z → option shortage;
}.

(** A two-dimensional numpy array: [shape[1]] and the rows; [len] of the
    array is the number of rows. *)
Record ndarray (scalar : Type) := {
  ncols : nat;
  rows : list (list scalar);
}.
Arguments ncols {scalar} _.
Arguments rows {scalar} _.

(** [faiss.IndexFlatIP]: its dimension [d] and the stored vectors;
    [ntotal] is their number. *)
Record IndexFlatIP (scalar : Type) := {
  d : nat;
  xb : list (list scalar);
}.
Arguments d {scalar} _.
Arguments xb {scalar} _.

Definition ntotal {scalar} (ix : IndexFlatIP scalar) : Z := len (xb ix).

(** A metadata dict.  [score] is the key that only [search] sets. *)
Record meta (scalar : Type) := {
  title : option str;
  url : option str;
  chunk_id : str;
  text : str;
  score : option scalar;
}.
Arguments title {scalar} _.
Arguments url {scalar} _.
Arguments chunk_id {scalar} _.
Arguments text {scalar} _.
Arguments score {scalar} _.

Global Instance meta_inhabited scalar : Inhabited (meta scalar) :=
  populate {| title := None; url := None; chunk_id := []; text := [];
              score := None |}.

(** Dicts are mutable objects and the store holds references to them.  A
    reference is the address of a dict in the list of all allocated dicts;
    allocation appends, nothing is ever freed. *)
Abbreviation loc := nat (only parsing).

Record FaissStore (scalar : Type) := {
  index : option (IndexFlatIP scalar);
  metadata : list loc;
  dim : option nat;
}.
Arguments index {scalar} _.
Arguments metadata {scalar} _.
Arguments dim {scalar} _.

(** The two artifacts [faiss.index] and [faiss_meta.json], each present or
    not. *)
Record files (scalar : Type) := {
  faiss_index : option (IndexFlatIP scalar);
  faiss_meta : option (list (meta scalar));
}.
Arguments faiss_index {scalar} _.
Arguments faiss_meta {scalar} _.

(** The process: the global [store], the allocated dicts and the disk. *)
Record world (scalar : Type) := {
  store : FaissStore scalar;
  objects : list (meta scalar);
  disk : files scalar;
}.
Arguments store {scalar} _.
Arguments objects {scalar} _.
Arguments disk {scalar} _.

(** A computation runs on the world and ends with a value or a raised
    exception; the world it returns is the one left behind in both cases. *)
Definition M (scalar A : Type) : Type := world scalar → result A * world scalar.

Definition ret {scalar A} (a : A) : M scalar A := λ w, (Ok a, w).

Definition raise {scalar A} (e : exn) : M scalar A := λ w, (Raise e, w).

Definition bind {scalar A B} (m : M scalar A) (k : A → M scalar B) : M scalar B :=
  λ w, match m w with
       | (Ok a, w') => k a w'
       | (Raise e, w') => (Raise e, w')
       end.

Notation "x <- m ;; k" := (bind m (λ x, k))
  (at level 100, m at next level, right associativity).
Notation "m ;; k" := (bind m (λ _, k))
  (at level 100, right associativity).

(** A pure computation that may raise. *)
Definition lift {scalar A} (r : result A) : M scalar A := λ w, (r, w).

Section store.
Context {scalar : Type} `{Float32 scalar}.

Abbreviation M := (M scalar).
Abbreviation world := (world scalar).

Definition get_store : M (FaissStore scalar) := λ w, (Ok (store w), w).

Definition put_store (s : FaissStore scalar) : M unit :=
  λ w, (Ok (), {| store := s; objects := objects w; disk := disk w |}).

Definition get_disk : M (files scalar) := λ w, (Ok (disk w), w).

Definition put_disk (f : files scalar) : M unit :=
  λ w, (Ok (), {| store := store w; objects := objects w; disk := f |}).

(** The dict a reference designates.  A reference always designates an
    allocated dict; an address that was never allocated reads as the
    empty record. *)
Definition deref (h : list (meta scalar)) (l : loc) : meta scalar :=
  default inhabitant (h !! l).

Definition read (l : loc) : M (meta scalar) := λ w, (Ok (deref (objects w) l), w).

(** A new dict. *)
Definition alloc (v : meta scalar) : M loc :=
  λ w, (Ok (length (objects w)),
        {| store := store w; objects := objects w ++ [v]; disk := disk w |}).

(** Assignment to keys of the dict at [l]. *)
Definition write (l : loc) (v : meta scalar) : M unit :=
  λ w, (Ok (), {| store := store w; objects := <[l := v]> (objects w);
                  disk := disk w |}).

Fixpoint alloc_all (vs : list (meta scalar)) : M (list loc) :=
  match vs with
  | [] => ret []
  | v :: vs' => l <- alloc v ;; ls <- alloc_all vs' ;; ret (l :: ls)
  end.

(** ** FaissStore *)

(** [FaissStore()] *)
Definition new_store : FaissStore scalar :=
  {| index := None; metadata := []; dim := None |}.

Definition init_if_needed (dm : nat) : M unit :=
  s <- get_store ;;
  match index s with
  | None => put_store {| index := Some {| d := dm; xb := [] |};
                         metadata := metadata s; dim := Some dm |}
  | Some _ => ret ()
  end.

(** [index.add(x)] of the faiss wrapper: the width of [x] is asserted to
    be the index's, then the rows are appended. *)
Definition index_add (ix : IndexFlatIP scalar) (x : ndarray scalar)
    : result (IndexFlatIP scalar) :=
  if bool_decide (ncols x = d ix)
  then Ok {| d := d ix; xb := xb ix ++ rows x |}
  else Raise AssertionError.

Definition add (embs : ndarray scalar) (metas : list loc) : M unit :=
  if len (rows embs) =? 0 then ret ()
  else
    init_if_needed (ncols embs) ;;
    let norm := {| ncols := ncols embs; rows := l2_normalize <$> rows embs |} in
    s <- get_store ;;
    match index s with
    | None => raise AttributeError
    | Some ix =>
        ix' <- lift (index_add ix norm) ;;
        put_store {| index := Some ix'; metadata := metadata s; dim := dim s |} ;;
        s <- get_store ;;
        put_store {| index := index s; metadata := metadata s ++ metas;
                     dim := dim s |}
    end.

(** Insertion in the order of the results: [x] goes before the first
    entry it ranks before. *)
Fixpoint insert_desc (x : scalar * Z) (l : list (scalar * Z)) : list (scalar * Z) :=
  match l with
  | [] => [x]
  | y :: l' => if ranks_before x y then x :: l else y :: insert_desc x l'
  end.

Definition sort_desc (l : list (scalar * Z)) : list (scalar * Z) :=
  foldl (λ acc x, insert_desc x acc) [] l.

(** One row of [index.search]: a stored vector enters the result heap
    only when its inner product with the query is above the lowest score
    (a score that is not a number never is); the [k] best (score, id)
    pairs are returned in faiss's order, ids being insertion positions;
    slots that cannot be filled hold the lowest score and the id [-1]. *)
Definition flat_search (ix : IndexFlatIP scalar) (k : Z) (q : list scalar)
    : list (scalar * Z) :=
  let scored := imap (λ i v, (inner_product q v, Z.of_nat i)) (xb ix) in
  let ranked := sort_desc (List.filter (λ r, score_ltb lowest r.1) scored) in
  let top := take (Z.to_nat k) ranked in
  top ++ replicate (Z.to_nat k - length top) (lowest, -1).

(** [index.search(x, k)] of the faiss wrapper: width and [k > 0] are
    asserted, the result arrays are allocated, and the zipped rows of [D]
    and [I] are returned. *)
Definition index_search (ix : IndexFlatIP scalar) (x : ndarray scalar) (k : Z)
    : result (list (list (scalar * Z))) :=
  if bool_decide (ncols x = d ix) then
    if 0 <? k then
      match search_shortage (len (rows x)) k with
      | Some s => Raise (shortage_exn s)
      | None => Ok (flat_search ix k <$> rows x)
      end
    else Raise AssertionError
  else Raise AssertionError.

Definition set_score (v : meta scalar) (x : scalar) : meta scalar :=
  {| title := title v; url := url v; chunk_id := chunk_id v; text := text v;
     score := Some x |}.

(** The loop [for score, idx in zip(D[0], I[0])] of [search]. *)
Fixpoint search_loop (raw : list (scalar * Z)) (out : list loc) : M (list loc) :=
  match raw with
  | [] => ret out
  | (sc, idx) :: rest =>
      s <- get_store ;;
      if (idx <? 0) || (idx >=? len (metadata s)) then search_loop rest out
      else
        l <- lift (py_getitem (metadata s) idx) ;;
        v <- read l ;;
        m <- alloc v ;;
        v' <- read m ;;
        write m (set_score v' sc) ;;
        search_loop rest (out ++ [m])
  end.

Definition search (q_emb : ndarray scalar) (k : Z) : M (list loc) :=
  s <- get_store ;;
  match index s with
  | None => ret []
  | Some ix =>
      if ntotal ix =? 0 then ret []
      else
        let qn := {| ncols := ncols q_emb; rows := l2_normalize <$> rows q_emb |} in
        DI <- lift (index_search ix qn k) ;;
        raw <- lift (py_getitem DI 0) ;;
        search_loop raw []
  end.

(** The values of a list of dicts, as [json.dump] and the HTTP layer
    serialise them. *)
Definition dump (ls : list loc) : M (list (meta scalar)) :=
  λ w, (Ok (deref (objects w) <$> ls), w).

(** [save]: the index file is written when the store has an index, then
    the metadata file.  Both writes are taken to succeed. *)
Definition save : M unit :=
  s <- get_store ;;
  match index s with
  | Some ix =>
      f <- get_disk ;;
      put_disk {| faiss_index := Some ix; faiss_meta := faiss_meta f |}
  | None => ret ()
  end ;;
  vs <- dump (metadata s) ;;
  f <- get_disk ;;
  put_disk {| faiss_index := faiss_index f; faiss_meta := Some vs |}.

Definition load : M unit :=
  f <- get_disk ;;
  match faiss_meta f with
  | Some vs =>
      ls <- alloc_all vs ;;
      s <- get_store ;;
      put_store {| index := index s; metadata := ls; dim := dim s |}
  | None => ret ()
  end ;;
  match faiss_index f with
  | Some ix =>
      s <- get_store ;;
      put_store {| index := Some ix; metadata := metadata s; dim := dim s |} ;;
      s <- get_store ;;
      put_store {| index := index s; metadata := metadata s; dim := Some (d ix) |}
  | None => ret ()
  end.
End store.

(** ** The HTTP handlers *)

(** The libraries the handlers call out to: the sentence embedder, pypdf,
    pandas and trafilatura. *)
Class Collaborators (scalar : Type) := {
  (** [embed_model.encode(parts, convert_to_numpy=True)] *)
  encode : list str → ndarray scalar;
  (** [p.extract_text()] for each [p] of [PdfReader(io.BytesIO(b)).pages] *)
  pdf_pages : list byte → result (list (option str));
  (** [pd.read_csv(io.BytesIO(b))]: the column labels and, for each row,
      its cells in column order, all as [f"{...}"] renders them *)
  read_csv : list byte → result (list str * list (list str));
  (** [trafilatura.fetch_url(url)] *)
  fetch_url : str → option str;
  (** [trafilatura.extract(html)] *)
  extract : str → option str;
}.

Record UploadFile := {
  filename : str;
  content : list byte;
}.

Record QueryRequest := {
  query : str;
  top_k : Z;
}.

Record MetaResponse (scalar : Type) := {
  total : Z;
  items : list (meta scalar);
}.
Arguments total {scalar} _.
Arguments items {scalar} _.

Section handlers.
Context {scalar : Type} `{Float32 scalar} `{Collaborators scalar}.

Abbreviation M := (M scalar).

(** The [metas] list built by each of the three [for i, t in
    enumerate(parts)] loops: one dict per part, with
    [chunk_id = f"{prefix}_{ts}_{i}"]. *)
Definition build_metas (title url : option str) (prefix : str) (ts : N)
    (parts : list str) : list (meta scalar) :=
  imap (λ i t, {| title := title; url := url;
                  chunk_id := prefix ++ U "_" ++ decimal ts ++ U "_"
                              ++ decimal (N.of_nat i);
                  text := t; score := None |}) parts.

(** The common tail of the three paths: embed the parts, build and store
    the records, and report how many parts there were. *)
Definition embed_and_add (title url : option str) (prefix : str) (ts : N)
    (parts : list str) : M Z :=
  let embs := encode parts in
  metas <- alloc_all (build_metas title url prefix ts parts) ;;
  add embs metas ;;
  ret (len parts).

(** The rows of a CSV file: [" | ".join(f"{c}: {row[c]}" for c in
    df.columns)]. *)
Definition csv_rows (df : list str * list (list str)) : list str :=
  (λ row, join (U " | ") (zip_with (λ c v, c ++ U ": " ++ v) df.1 row)) <$> df.2.

(** The steps shared by the PDF path, the plain-text path and the URL
    path once the text is known: [split_text] with the configured size and
    overlap, then embedding and storing. *)
Definition ingest_text (title url : option str) (prefix : str) (ts : N)
    (text : str) : M Z :=
  parts <- lift (split_text text CHUNK_SIZE CHUNK_OVERLAP) ;;
  embed_and_add title url prefix ts parts.

(** One iteration of the loop of [ingest], for the file [f] processed
    when the clock reads [ts] seconds; the value is [len(parts)].
    Progress notifications do not touch the store and are left out. *)
Definition ingest_file (f : UploadFile) (ts : N) : M Z :=
  let name := filename f in
  let b := content f in
  if endswith (lower name) (U ".pdf") then
    pages <- lift (pdf_pages b) ;;
    let text := join [10%N] (default [] <$> pages) in
    ingest_text (Some name) None name ts text
  else if endswith (lower name) (U ".csv") then
    df <- lift (read_csv b) ;;
    embed_and_add (Some name) None name ts (csv_rows df)
  else
    text <- lift (utf8_decode ignore b) ;;
    ingest_text (Some name) None name ts text.

Fixpoint ingest_loop (files : list (UploadFile * N)) (added_total : Z) : M Z :=
  match files with
  | [] => ret added_total
  | (f, ts) :: rest =>
      n <- ingest_file f ts ;;
      ingest_loop rest (added_total + n)
  end.

(** [POST /ingest]: each file comes with the reading of [time.time()]
    taken while it is processed; the value is the [added] field of the
    response.  The [notify] calls are not part of this computation; they
    are listed by [ingest_events] below, and their sends are taken to
    succeed. *)
Definition ingest (files : list (UploadFile * N)) : M Z :=
  added_total <- ingest_loop files 0 ;;
  save ;;
  ret added_total.

(** One iteration of the loop of [ingest_urls]. *)
Definition ingest_url (u : str) (ts : N) : M Z :=
  let html := fetch_url u in
  let text := match html with
              | Some ((_ :: _) as h) => extract h
              | _ => None
              end in
  match text with
  | Some ((_ :: _) as text) => ingest_text None (Some u) (U "url") ts text
  | _ => ret 0
  end.

Fixpoint ingest_urls_loop (urls : list (str * N)) (total_added : Z) : M Z :=
  match urls with
  | [] => ret total_added
  | (u, ts) :: rest =>
      n <- ingest_url u ts ;;
      ingest_urls_loop rest (total_added + n)
  end.

(** [POST /ingest/urls]; its [notify] calls are listed by
    [ingest_urls_events] below, and their sends are taken to succeed. *)
Definition ingest_urls (urls : list (str * N)) : M Z :=
  total_added <- ingest_urls_loop urls 0 ;;
  save ;;
  ret total_added.

(** [POST /query]; the value is the [answers] field of the response. *)
Definition query_endpoint (req : QueryRequest) : M (list (meta scalar)) :=
  let q := query req in
  match q with
  | [] => raise (HTTPException 400 (U "Query missing"))
  | _ =>
      let emb := encode [q] in
      res <- search emb (top_k req) ;;
      dump res
  end.

(** [GET /meta] *)
Definition get_meta (n : Z) : M (MetaResponse scalar) :=
  s <- get_store ;;
  its <- dump (reverse (py_slice (metadata s) (Some (- n)) None)) ;;
  ret {| total := len (metadata s); items := its |}.
End handlers.

(** ** A small instance to run the model on

    Integers stand in for [float32]: a vector is normalised to itself,
    equal scores keep their insertion order, result arrays fit as long as
    their size in bytes is below [2 ^ 63], and the embedding of a text is
    the one-dimensional vector of its length.
    Every URL serves the same two sentences; PDF and CSV parsing fail. *)
Global Instance Z_float32 : Float32 Z := {|
  l2_normalize := λ v, v;
  inner_product := λ u v, foldr Z.add 0 (zip_with Z.mul u v);
  score_ltb := Z.ltb;
  lowest := -1000000;
  ranks_before := λ x y, y.1 <? x.1;
  search_shortage := λ n k,
    if (2 ^ 63 <=? k) || (2 ^ 63 <=? n * k * 8) then Some too_big else None;
|}.

Global Instance length_embedder : Collaborators Z := {|
  encode := λ parts, {| ncols := 1; rows := (λ p, [len p]) <$> parts |};
  pdf_pages := λ _, Raise ExtractorError;
  read_csv := λ _, Raise ExtractorError;
  fetch_url := λ _, Some (U "<p>Results are in. Shares rose.</p>");
  extract := λ _, Some (U "Results are in. Shares rose.");
|}.

(** The process at start: [store = FaissStore()], before [store.load()]. *)
Definition initial (f : files Z) : world Z :=
  {| store := new_store; objects := []; disk := f |}.

Definition no_files : files Z := {| faiss_index := None; faiss_meta := None |}.

(** ** Vocabulary of the properties *)

(** A text with all white space removed. *)
Definition nonws (s : str) : str := List.filter (λ c, negb (is_space c)) s.

Section vocabulary.
Context {scalar : Type}.

Definition with_objects (w : world scalar) (h : list (meta scalar)) : world scalar :=
  {| store := store w; objects := h; disk := disk w |}.

Definition with_store (w : world scalar) (s : FaissStore scalar) : world scalar :=
  {| store := s; objects := objects w; disk := disk w |}.

(** [len(vectors)] *)
Definition vector_count (s : FaissStore scalar) : Z :=
  from_option ntotal 0 (index s).

(** The invariant [len(vectors) == len(metadata)]. *)
Definition count_invariant (s : FaissStore scalar) : Prop :=
  vector_count s = len (metadata s).

(** Every reference held by the store designates an allocated dict. *)
Definition well_formed (w : world scalar) : Prop :=
  Forall (λ l, l < length (objects w))%nat (metadata (store w)).

(** The records added to the store between [w] and [w'], and their
    chunk ids. *)
Definition added_records (w w' : world scalar) : list (meta scalar) :=
  deref (objects w') <$> drop (length (metadata (store w))) (metadata (store w')).

Definition added_ids (w w' : world scalar) : list str :=
  chunk_id <$> added_records w w'.

(** The chunk id [f"{prefix}_{ts}_{i}"]. *)
Definition chunk_id_of (prefix : str) (ts : N) (i : nat) : str :=
  prefix ++ U "_" ++ decimal ts ++ U "_" ++ decimal (N.of_nat i).

(** The chunk ids of one item with [n] parts. *)
Definition item_ids (c : str * N * nat) : list str :=
  chunk_id_of c.1.1 c.1.2 <$> seq 0 c.2.

(** [w'] is what ingesting some items makes of [w]: dicts were only
    allocated, and the references appended to the store designate, item by
    item, dicts with the chunk ids of [contribs], a list of (prefix,
    timestamp, number of parts). *)
Definition ingested (contribs : list (str * N * nat)) (w w' : world scalar) : Prop :=
  objects w `prefix_of` objects w' ∧
  ∃ new, metadata (store w') = metadata (store w) ++ new ∧
         Forall (λ l, l < length (objects w'))%nat new ∧
         (λ l, chunk_id (deref (objects w') l)) <$> new
         = concat (item_ids <$> contribs).

(** The metadata entry a raw search id designates, if it is in range. *)
Definition entry (md : list loc) (idx : Z) : option loc :=
  if idx <? 0 then None else md !! Z.to_nat idx.

(** The results [search] owes for the raw rows [raw]: for each id in
    range, in order, the stored record with the score set. *)
Definition expected_hits (md : list loc) (h : list (meta scalar))
    (raw : list (scalar * Z)) : list (meta scalar) :=
  omap (λ r, (λ l, set_score (deref h l) r.1) <$> entry md r.2) raw.
End vocabulary.

(** ** Example worlds *)

Definition bytes_of (s : string) : list byte := list_byte_of_string s.

Definition notes_txt : UploadFile :=
  {| filename := U "notes.txt";
     content := bytes_of "Revenue grew. Margins fell." |}.

Definition memo_txt : UploadFile :=
  {| filename := U "memo.txt"; content := bytes_of "Guidance was cut!" |}.

(** The process after [POST /ingest] of [notes.txt] at second 100 on an
    empty store: one record, one vector of dimension 1. *)
Definition after_notes : world Z := Eval vm_compute in
  (ingest [(notes_txt, 100%N)] (initial no_files)).2.

(** The same after a second batch with [memo.txt] at second 160. *)
Definition after_memo : world Z := Eval vm_compute in
  (ingest [(memo_txt, 160%N)] after_notes).2.

(** A disk holding a one-record metadata file and no index file. *)
Definition meta_file_only : files Z :=
  {| faiss_index := None; faiss_meta := faiss_meta (disk after_notes) |}.

(** ** Progress notifications *)

(** The messages pushed to a client: [{"event": ..., **data}]. *)
Inductive IngestionEvent :=
  | file_start (file : str)
  | file_done (file : str) (added : Z)
  | url_start (u : str)
  | url_done (u : str) (added : Z)
  | url_error (u : str)
  | ingest_done (added : Z).

(** What goes out on a socket: the acceptance of the connection, or a
    JSON message.  Both are modelled as succeeding. *)
Inductive frame :=
  | Accept
  | SendJson (msg : IngestionEvent).

(** [WSManager]: the dict [active] from client ids to sockets, and, for
    the sockets (numbered), the frames sent so far in order. *)
Record WSManager := {
  active : gmap (list N) nat;
  wire : list (nat * frame);
}.

Definition ws_connect (client_id : str) (websocket : nat) (m : WSManager) : WSManager :=
  {| active := <[client_id := websocket]> (active m);
     wire := wire m ++ [(websocket, Accept)] |}.

Definition ws_disconnect (client_id : str) (m : WSManager) : WSManager :=
  {| active := delete client_id (active m); wire := wire m |}.

Definition ws_send (client_id : str) (msg : IngestionEvent) (m : WSManager) : WSManager :=
  match active m !! client_id with
  | Some ws => {| active := active m; wire := wire m ++ [(ws, SendJson msg)] |}
  | None => m
  end.

(** The [notify] closure of the two handlers, for the header value
    [x_client_id]. *)
Definition notify (x_client_id : option str) (msg : IngestionEvent) (m : WSManager)
    : WSManager :=
  match x_client_id with
  | Some ((_ :: _) as c) => ws_send c msg m
  | _ => m
  end.

(** A run of [notify] calls. *)
Definition notify_all (x_client_id : option str) (msgs : list IngestionEvent)
    (m : WSManager) : WSManager :=
  foldl (λ m msg, notify x_client_id msg m) m msgs.

Section notifications.
Context {scalar : Type} `{Float32 scalar} `{Collaborators scalar}.

(** The text [ingest_urls] obtains for a URL. *)
Definition url_text (u : str) : option str :=
  match fetch_url u with
  | Some ((_ :: _) as h) => extract h
  | _ => None
  end.

(** [not text] is false. *)
Definition has_text (u : str) : bool :=
  match url_text u with
  | Some (_ :: _) => true
  | _ => false
  end.

(** The messages [notify] is called with by the loop of [ingest] started
    on [w], in order: [file_start] before a file is read, [file_done] with
    [len(parts)] once its records are added; a raise ends the run. *)
Fixpoint ingest_loop_events (files : list (UploadFile * N)) (w : world scalar)
    : list IngestionEvent :=
  match files with
  | [] => []
  | (f, ts) :: rest =>
      file_start (filename f)
      :: match ingest_file f ts w with
         | (Ok n, w1) => file_done (filename f) n :: ingest_loop_events rest w1
         | (Raise _, _) => []
         end
  end.

(** All messages of one [POST /ingest]: those of the loop, then
    [ingest_done] with the total once [save] has returned. *)
Definition ingest_events (files : list (UploadFile * N)) (w : world scalar)
    : list IngestionEvent :=
  ingest_loop_events files w
  ++ match ingest files w with
     | (Ok n, _) => [ingest_done n]
     | (Raise _, _) => []
     end.

(** The same for the loop of [ingest_urls]: a URL without text gets
    [url_error] and the loop goes on. *)
Fixpoint ingest_urls_loop_events (urls : list (str * N)) (w : world scalar)
    : list IngestionEvent :=
  match urls with
  | [] => []
  | (u, ts) :: rest =>
      url_start u
      :: if has_text u then
           match ingest_url u ts w with
           | (Ok n, w1) => url_done u n :: ingest_urls_loop_events rest w1
           | (Raise _, _) => []
           end
         else url_error u :: ingest_urls_loop_events rest w
  end.

Definition ingest_urls_events (urls : list (str * N)) (w : world scalar)
    : list IngestionEvent :=
  ingest_urls_loop_events urls w
  ++ match ingest_urls urls w with
     | (Ok n, _) => [ingest_done n]
     | (Raise _, _) => []
     end.
End notifications.

(** The [added] fields of the [*_done] messages of the items. *)
Definition item_added (msg : IngestionEvent) : Z :=
  match msg with
  | file_done _ n | url_done _ n => n
  | _ => 0
  end.

(** An upload the example instance cannot parse. *)
Definition report_pdf : UploadFile :=
  {| filename := U "Report.PDF"; content := bytes_of "%PDF-1.7" |}.

(** The example instance with a CSV reader that finds a table of two
    rows in every file. *)
Definition with_price_table : Collaborators Z := {|
  encode := λ parts, {| ncols := 1; rows := (λ p, [len p]) <$> parts |};
  pdf_pages := λ _, Raise ExtractorError;
  read_csv := λ _, Ok ([U "ticker"; U "price"],
                       [[U "ACME"; U "10.5"]; [U "INIT"; U "7"]]);
  fetch_url := λ _, None;
  extract := λ _, None;
|}.

Definition prices_csv : UploadFile :=
  {| filename := U "prices.CSV"; content := bytes_of "ticker,price" |}.

(** The process after the loop of [ingest] has processed [notes.txt] on an
    empty store, before anything is saved. *)
Definition after_ingest_loop_notes : world Z := Eval vm_compute in
  (ingest_loop [(notes_txt, 100%N)] 0 (initial no_files)).2.
(** ** Properties of the chunker *)

(** The chunker on the two-sentence shapes of the source's use. *)
Example split_text_demo :
  split_text (U "Hello world. Second sentence.  Third one!") 30 5
  = Ok [U "Hello world. Second sentence."; U "Third one!"].
Proof. vm_compute. reflexivity. Qed.

Example split_text_empty : split_text [] CHUNK_SIZE CHUNK_OVERLAP = Ok [].
Proof. reflexivity. Qed.

Example split_text_one_sentence :
  split_text (U "  Hello world.  ") CHUNK_SIZE CHUNK_OVERLAP = Ok [U "Hello world."].
Proof. vm_compute. reflexivity. Qed.

Example split_text_windows :
  split_text (U "aaaaaaaaaa bbbb. c.") 4 1
  = Ok [U "aaaa"; U "aaaa"; U "aaaa"; U "a bb"; U "bbb."; U "."; U "c."].
Proof. vm_compute. reflexivity. Qed.

Section chunker_facts.
Implicit Types (s t cur : str) (chunks ps : list str) (size overlap : Z).

Lemma nonws_cons c s :
  nonws (c :: s) = if is_space c then nonws s else c :: nonws s.
Proof. unfold nonws. cbn [List.filter]. by destruct (is_space c). Qed.

Lemma nonws_app s t : nonws (s ++ t) = nonws s ++ nonws t.
Proof. apply List.filter_app. Qed.

Lemma nonws_reverse s : nonws (reverse s) = reverse (nonws s).
Proof.
  induction s as [|c s IH]; [done|].
  rewrite reverse_cons, nonws_app, IH, !nonws_cons.
  destruct (is_space c); [apply app_nil_r|by rewrite reverse_cons].
Qed.

Lemma nonws_lstrip s : nonws (lstrip s) = nonws s.
Proof.
  induction s as [|c s IH]; [done|]. cbn [lstrip]. rewrite nonws_cons.
  destruct (is_space c) eqn:E; [done|]. by rewrite nonws_cons, E.
Qed.

Lemma nonws_strip s : nonws (strip s) = nonws s.
Proof.
  unfold strip, rstrip.
  by rewrite nonws_reverse, nonws_lstrip, nonws_reverse, reverse_involutive, nonws_lstrip.
Qed.

Lemma length_lstrip s : (length (lstrip s) <= length s)%nat.
Proof. induction s as [|c s IH]; simpl; [lia|]. destruct (is_space c); simpl; lia. Qed.

Lemma len_strip s : len (strip s) <= len s.
Proof.
  unfold len, strip, rstrip. rewrite length_reverse.
  pose proof (length_lstrip (reverse (lstrip s))) as H1.
  rewrite length_reverse in H1. pose proof (length_lstrip s). lia.
Qed.

Lemma nonws_cons_hd c ps :
  nonws (concat (cons_hd c ps)) = nonws (c :: concat ps).
Proof. destruct ps as [|p ps]; [|done]. cbn [cons_hd concat]. by rewrite app_nil_r. Qed.

Lemma nonws_re_split_go a k s : nonws (concat (re_split_go a k s)) = nonws s.
Proof.
  revert a k. induction s as [|c s IH]; intros a k; [done|].
  cbn [re_split_go]. rewrite (nonws_cons c s). destruct (is_space c) eqn:E.
  - destruct k; [apply IH|]. destruct a; [apply (IH false true)|].
    by rewrite nonws_cons_hd, nonws_cons, E, IH.
  - by rewrite nonws_cons_hd, nonws_cons, E, IH.
Qed.

Lemma nonws_flush chunks cur :
  nonws (concat (flush chunks cur)) = nonws (concat chunks) ++ nonws cur.
Proof.
  destruct cur as [|c cur]; cbn [flush]; [by rewrite app_nil_r|].
  rewrite concat_app, nonws_app. cbn [concat]. by rewrite app_nil_r.
Qed.

(** Without a unit longer than [size] the loop never windows, never
    raises, and keeps every character that is not white space. *)
Lemma split_loop_nonws size overlap sentences chunks cur :
  Forall (λ s, len s <= size) sentences →
  ∃ chunks' cur',
    split_loop size overlap sentences chunks cur = Ok (chunks', cur') ∧
    nonws (concat chunks') ++ nonws cur'
    = nonws (concat chunks) ++ nonws cur ++ nonws (concat sentences).
Proof.
  intros Hs. revert chunks cur.
  induction Hs as [|s rest Hle _ IH]; intros chunks cur.
  - exists chunks, cur. simpl. by rewrite app_nil_r.
  - cbn [split_loop concat]. destruct (len cur + len s <=? size).
    + destruct (IH chunks (strip (cur ++ U " " ++ s))) as (c' & k' & -> & E).
      exists c', k'. split; [done|]. rewrite E, nonws_strip, !nonws_app.
      by rewrite <- !app_assoc.
    + assert ((len s >? size) = false) as -> by lia.
      destruct (IH (flush chunks cur) s) as (c' & k' & -> & E).
      exists c', k'. split; [done|]. rewrite E, nonws_flush, !nonws_app.
      by rewrite <- !app_assoc.
Qed.

Lemma len_py_slice_window s i size :
  0 <= i → 0 <= size → len (py_slice s (Some i) (Some (i + size))) <= size.
Proof.
  intros Hi Hsz. unfold py_slice, len, slice_index. cbn [from_option].
  rewrite length_take. repeat case_match; lia.
Qed.

Lemma windows_bound s size overlap :
  0 <= overlap < size →
  ∃ ws, windows s size overlap = Ok ws ∧ Forall (λ w, len w <= size) ws.
Proof.
  intros H. unfold windows, py_range0.
  assert ((size - overlap =? 0) = false) as -> by lia.
  assert ((size - overlap <? 0) = false) as -> by lia.
  eexists. split; [done|]. apply Forall_fmap, Forall_fmap, Forall_forall.
  intros k _. apply len_py_slice_window; nia.
Qed.

Lemma Forall_flush (P : str → Prop) chunks cur :
  Forall P chunks → P cur → Forall P (flush chunks cur).
Proof.
  intros. destruct cur; simpl; [done|]. apply Forall_app; split; [done|].
  by constructor.
Qed.

(** What the loop does guarantee: a buffer is at most one character,
    the joining space, longer than [size]. *)
Lemma split_loop_bound size overlap sentences chunks cur :
  0 <= overlap < size →
  Forall (λ c, len c <= size + 1) chunks → len cur <= size + 1 →
  ∃ chunks' cur',
    split_loop size overlap sentences chunks cur = Ok (chunks', cur') ∧
    Forall (λ c, len c <= size + 1) chunks' ∧ len cur' <= size + 1.
Proof.
  intros Hso. revert chunks cur.
  induction sentences as [|s rest IH]; intros chunks cur Hc Hk; [by eauto|].
  cbn [split_loop]. destruct (len cur + len s <=? size) eqn:E1.
  - apply IH; [done|]. pose proof (len_strip (cur ++ U " " ++ s)) as Hl.
    unfold len in *. rewrite !length_app in Hl.
    change (length (U " ")) with 1%nat in Hl. lia.
  - pose proof (Forall_flush _ _ _ Hc Hk) as Hf.
    destruct (len s >? size) eqn:E2.
    + destruct (windows_bound s size overlap Hso) as (ws & -> & Hws).
      apply IH; [|unfold len; simpl; lia].
      apply Forall_app; split; [done|].
      eapply Forall_impl; [exact Hws|]. simpl. intros; lia.
    + apply IH; [done|lia].
Qed.

Lemma split_text_bound text size overlap :
  0 <= overlap < size →
  ∃ chunks, split_text text size overlap = Ok chunks ∧
            Forall (λ c, len c <= size + 1) chunks.
Proof.
  intros Hso. unfold split_text. destruct text as [|c text]; [by eauto|].
  destruct (split_loop_bound size overlap (re_split (strip (c :: text))) [] [] Hso)
    as (chunks & cur & -> & Hc & Hk); [done|unfold len; simpl; lia|].
  eexists. split; [done|]. by apply Forall_flush.
Qed.
End chunker_facts.

(** C1 (refuted on the code): the buffer test [len(cur) + len(s) <= size]
    does not count the space that joins the two, so with [size = 4] the
    text ["a. b."] comes back as the single chunk ["a. b."] of length 5. *)
Theorem split_text_chunk_longer_than_size :
  split_text (U "a. b.") 4 0 = Ok [U "a. b."] ∧ len (U "a. b.") = 5 ∧ ¬ (5 <= 4).
Proof. split; [vm_compute; reflexivity|]. split; [reflexivity|lia]. Qed.

(** C5: when no sentence-like unit of [text] is longer than [size], the
    chunks of [split_text text size 0], concatenated, have exactly the
    characters of [text] that are not white space, in the same order:
    nothing but white space is lost or duplicated. *)
Theorem split_text_concat_reconstructs (text : str) (size : Z) :
  Forall (λ s, len s <= size) (re_split (strip text)) →
  ∃ chunks, split_text text size 0 = Ok chunks ∧
            nonws (concat chunks) = nonws text.
Proof.
  intros Hs. unfold split_text. destruct text as [|c text]; [by eauto|].
  destruct (split_loop_nonws size 0 _ [] [] Hs) as (chunks & cur & -> & E).
  eexists. split; [done|].
  rewrite nonws_flush, E. simpl.
  unfold re_split. by rewrite nonws_re_split_go, nonws_strip.
Qed.

Lemma split_text_concat_reconstructs_witness :
  ∃ chunks, split_text (U "One. Two!  Three?") 9 0 = Ok chunks ∧
            nonws (concat chunks) = nonws (U "One. Two!  Three?").
Proof.
  apply (split_text_concat_reconstructs (U "One. Two!  Three?") 9).
  vm_compute. repeat constructor; discriminate.
Defined.


(** ** Properties of the vector store *)

Section store_facts.
Context {scalar : Type} `{Float32 scalar}.
Implicit Types (w : world scalar) (h vs : list (meta scalar))
  (md metas : list loc) (raw : list (scalar * Z)).

Lemma world_eta w : {| store := store w; objects := objects w; disk := disk w |} = w.
Proof. by destruct w. Qed.

Lemma store_eta (s : FaissStore scalar) :
  {| index := index s; metadata := metadata s; dim := dim s |} = s.
Proof. by destruct s. Qed.

Lemma alloc_all_run vs w :
  alloc_all vs w
  = (Ok (seq (length (objects w)) (length vs)), with_objects w (objects w ++ vs)).
Proof.
  revert w. induction vs as [|v vs IH]; intros w.
  - cbn. unfold with_objects. by rewrite app_nil_r, world_eta.
  - cbn [alloc_all]. unfold bind at 1. cbn [alloc]. unfold bind at 1.
    rewrite IH. cbn. rewrite length_app, Nat.add_1_r.
    unfold with_objects. cbn. by rewrite <- app_assoc.
Qed.

(** *** [add] *)

Lemma add_no_rows embs metas w : rows embs = [] → add embs metas w = (Ok (), w).
Proof. intros E. unfold add. by rewrite E. Qed.

Lemma len_rows_nonzero (embs : ndarray scalar) :
  rows embs ≠ [] → (len (rows embs) =? 0) = false.
Proof. unfold len. destruct (rows embs); [done|]. intros _. apply Z.eqb_neq. cbn [length]. lia. Qed.

Lemma add_fresh embs metas w :
  rows embs ≠ [] → index (store w) = None →
  add embs metas w
  = (Ok (), with_store w
       {| index := Some {| d := ncols embs; xb := l2_normalize <$> rows embs |};
          metadata := metadata (store w) ++ metas;
          dim := Some (ncols embs) |}).
Proof.
  intros Hr Hi. unfold add. rewrite (len_rows_nonzero _ Hr).
  unfold bind, init_if_needed, bind, get_store. rewrite Hi.
  cbn -[fmap]. unfold index_add. cbn -[fmap]. by rewrite bool_decide_eq_true_2.
Qed.

Lemma add_match embs metas w ix :
  rows embs ≠ [] → index (store w) = Some ix → ncols embs = d ix →
  add embs metas w
  = (Ok (), with_store w
       {| index := Some {| d := d ix; xb := xb ix ++ (l2_normalize <$> rows embs) |};
          metadata := metadata (store w) ++ metas;
          dim := dim (store w) |}).
Proof.
  intros Hr Hi Hd. unfold add. rewrite (len_rows_nonzero _ Hr).
  unfold bind, init_if_needed, bind, get_store. rewrite Hi.
  cbn -[fmap]. rewrite Hi. unfold index_add. cbn -[fmap].
  by rewrite bool_decide_eq_true_2.
Qed.

Lemma add_mismatch embs metas w ix :
  rows embs ≠ [] → index (store w) = Some ix → ncols embs ≠ d ix →
  add embs metas w = (Raise AssertionError, w).
Proof.
  intros Hr Hi Hd. unfold add. rewrite (len_rows_nonzero _ Hr).
  unfold bind, init_if_needed, bind, get_store. rewrite Hi.
  cbn -[fmap]. rewrite Hi. unfold index_add. cbn -[fmap].
  by rewrite bool_decide_eq_false_2.
Qed.

(** Every call of [add] either appends all of [metas] or leaves the
    store as it is; dicts and disk are not touched. *)
Lemma add_cases embs metas w :
  ∃ r s, add embs metas w = (r, with_store w s) ∧
         (s = store w ∨
          (r = Ok () ∧ metadata s = metadata (store w) ++ metas ∧
           vector_count s = vector_count (store w) + len (rows embs))).
Proof.
  destruct (decide (rows embs = [])) as [E|E].
  { exists (Ok ()), (store w). rewrite add_no_rows by done.
    unfold with_store. rewrite world_eta. auto. }
  destruct (index (store w)) as [ix|] eqn:Hi.
  - destruct (decide (ncols embs = d ix)) as [Hd|Hd].
    + eexists _, _. rewrite (add_match _ _ _ ix) by done. split; [done|].
      right. split; [done|]. split; [done|].
      unfold vector_count, ntotal, len. rewrite Hi. cbn.
      rewrite length_app, length_fmap. lia.
    + exists (Raise AssertionError), (store w).
      rewrite (add_mismatch _ _ _ ix) by done.
      unfold with_store. rewrite world_eta. auto.
  - eexists _, _. rewrite add_fresh by done. split; [done|].
    right. split; [done|]. split; [done|].
    unfold vector_count, ntotal, len. rewrite Hi. cbn. rewrite length_fmap. lia.
Qed.

(** *** [search] *)

Lemma entry_None md idx :
  entry md idx = None ↔ ((idx <? 0) || (idx >=? len md)) = true.
Proof.
  unfold entry, len. destruct (idx <? 0) eqn:E; [done|]. cbn [orb].
  rewrite lookup_ge_None. lia.
Qed.

Lemma entry_Some md idx l :
  entry md idx = Some l →
  ((idx <? 0) || (idx >=? len md)) = false ∧ py_getitem md idx = Ok l.
Proof.
  intros E. split.
  - destruct ((idx <? 0) || (idx >=? len md)) eqn:C; [|done].
    apply entry_None in C. congruence.
  - unfold entry in E. destruct (idx <? 0) eqn:C; [done|].
    unfold py_getitem. rewrite C. cbv zeta. by rewrite C, E.
Qed.

Lemma deref_app_new h v : deref (h ++ [v]) (length h) = v.
Proof. unfold deref. by rewrite list_lookup_middle. Qed.

Lemma deref_app_old h vs l : (l < length h)%nat → deref (h ++ vs) l = deref h l.
Proof. intros Hl. unfold deref. by rewrite lookup_app_l. Qed.

Lemma search_loop_skip sc idx raw (out : list loc) w :
  entry (metadata (store w)) idx = None →
  search_loop ((sc, idx) :: raw) out w = search_loop raw out w.
Proof.
  intros E. apply entry_None in E. cbn [search_loop].
  unfold bind at 1. cbn [get_store]. by rewrite E.
Qed.

Lemma search_loop_hit sc idx raw (out : list loc) w l :
  entry (metadata (store w)) idx = Some l →
  search_loop ((sc, idx) :: raw) out w
  = search_loop raw (out ++ [length (objects w)])
      (with_objects w (objects w ++ [set_score (deref (objects w) l) sc])).
Proof.
  intros E. apply entry_Some in E as [C G]. cbn [search_loop].
  unfold bind at 1. cbn [get_store]. rewrite C.
  unfold bind at 1. unfold lift at 1. rewrite G.
  unfold bind at 1. cbn [read]. unfold bind at 1. cbn [alloc].
  unfold bind at 1. cbn [read objects]. unfold bind at 1. cbn [write objects].
  rewrite deref_app_new. unfold with_objects. cbn [store disk].
  rewrite insert_app_r_alt, Nat.sub_diag by lia. done.
Qed.

(** The loop never raises, allocates one dict per raw id in range, and
    touches neither the store nor any dict that existed before. *)
Lemma search_loop_frame raw (out : list loc) w :
  ∃ new,
    search_loop raw out w
    = (Ok (out ++ seq (length (objects w)) (length new)),
       with_objects w (objects w ++ new)) ∧
    length new = length (omap (λ r, entry (metadata (store w)) r.2) raw).
Proof.
  revert out w. induction raw as [|[sc idx] raw IH]; intros out w.
  - exists []. cbn. unfold with_objects. by rewrite !app_nil_r, world_eta.
  - destruct (entry (metadata (store w)) idx) as [l|] eqn:E.
    + rewrite (search_loop_hit _ _ _ _ _ l) by done.
      edestruct IH as (new & -> & Hn). eexists (_ :: new). split.
      * cbn [with_objects objects store disk length seq].
        rewrite length_app, Nat.add_1_r, <- !app_assoc. done.
      * cbn -[entry]. rewrite E. cbn -[entry]. by rewrite Hn.
    + rewrite search_loop_skip by done. cbn -[entry]. rewrite E. apply IH.
Qed.

Lemma expected_hits_app_old md h vs raw :
  Forall (λ l, l < length h)%nat md →
  expected_hits md (h ++ vs) raw = expected_hits md h raw.
Proof.
  intros Hwf. unfold expected_hits. apply list_omap_ext, Forall2_same_length_lookup_2; [done|].
  intros i r r' Hr Hr'. assert (r' = r) as -> by congruence.
  destruct (entry md r.2) as [l|] eqn:E; [|done]. cbn. f_equal. f_equal.
  apply deref_app_old. unfold entry in E. destruct (r.2 <? 0); [done|].
  by eapply (Forall_lookup_1 _ _ _ _ Hwf).
Qed.

Lemma expected_hits_cons md h sc idx raw :
  expected_hits md h ((sc, idx) :: raw)
  = match entry md idx with
    | Some l => set_score (deref h l) sc :: expected_hits md h raw
    | None => expected_hits md h raw
    end.
Proof. unfold expected_hits. cbn -[entry]. by destruct (entry md idx). Qed.

Lemma well_formed_alloc w vs : well_formed w → well_formed (with_objects w (objects w ++ vs)).
Proof.
  unfold well_formed. cbn. intros Hwf. eapply Forall_impl; [exact Hwf|].
  intros l Hl. cbn in Hl. rewrite length_app. lia.
Qed.

(** On a well-formed world the dicts the loop allocates are the
    expected results, in order. *)
Lemma search_loop_hits raw (out : list loc) w :
  well_formed w →
  let new := expected_hits (metadata (store w)) (objects w) raw in
  search_loop raw out w
  = (Ok (out ++ seq (length (objects w)) (length new)),
     with_objects w (objects w ++ new)).
Proof.
  revert out w. induction raw as [|[sc idx] raw IH]; intros out w Hwf new.
  - cbn. unfold with_objects. by rewrite !app_nil_r, world_eta.
  - subst new. rewrite expected_hits_cons.
    destruct (entry (metadata (store w)) idx) as [l|] eqn:E.
    + rewrite (search_loop_hit _ _ _ _ _ l) by done.
      rewrite IH by by apply well_formed_alloc.
      cbn [with_objects objects store disk].
      rewrite expected_hits_app_old by exact Hwf.
      cbn [length seq]. rewrite length_app, Nat.add_1_r, <- !app_assoc. done.
    + rewrite search_loop_skip by done. by apply IH.
Qed.

Lemma py_getitem_first {A} (x : A) (l : list A) : py_getitem (x :: l) 0 = Ok x.
Proof. reflexivity. Qed.

Lemma search_empty (q : ndarray scalar) k w :
  vector_count (store w) = 0 → search q k w = (Ok [], w).
Proof.
  unfold vector_count, search, bind. cbn [get_store].
  destruct (index (store w)) as [ix|]; [|done]. cbn [from_option].
  by intros ->.
Qed.

Lemma search_nonempty (q : ndarray scalar) k w ix :
  index (store w) = Some ix → ntotal ix ≠ 0 →
  search q k w
  = match index_search ix {| ncols := ncols q; rows := l2_normalize <$> rows q |} k with
    | Raise e => (Raise e, w)
    | Ok DI =>
        match py_getitem DI 0 with
        | Raise e => (Raise e, w)
        | Ok raw => search_loop raw [] w
        end
    end.
Proof.
  intros Hi Hn. unfold search. unfold bind at 1. cbn [get_store]. rewrite Hi.
  apply Z.eqb_neq in Hn. rewrite Hn. unfold bind at 1, lift at 1.
  destruct (index_search _ _ _) as [DI|e]; [|done].
  unfold bind, lift. by destruct (py_getitem DI 0).
Qed.

Lemma length_insert_desc x (l : list (scalar * Z)) :
  length (insert_desc x l) = S (length l).
Proof.
  induction l as [|y l IH]; [done|]. cbn [insert_desc].
  destruct (ranks_before x y); cbn [length]; [done|by rewrite IH].
Qed.

Lemma length_sort_desc (l : list (scalar * Z)) : length (sort_desc l) = length l.
Proof.
  unfold sort_desc.
  enough (∀ acc, length (foldl (λ a x, insert_desc x a) acc l)
                 = (length acc + length l)%nat) as Hg by apply (Hg []).
  induction l as [|x l IH]; intros acc; cbn [foldl length]; [lia|].
  rewrite IH, length_insert_desc. lia.
Qed.

Lemma length_omap_le {A B} (f : A → option B) (l : list A) :
  (length (omap f l) <= length l)%nat.
Proof.
  induction l as [|x l IH]; [done|]. cbn. destruct (f x); cbn; lia.
Qed.

(** At most [ntotal] of the ids of a raw row are not the filler [-1]. *)
Lemma flat_search_hits md ix k q :
  len (omap (λ r, entry md r.2) (flat_search ix k q)) <= ntotal ix.
Proof.
  unfold flat_search, ntotal, len. rewrite omap_app.
  assert (∀ n, omap (λ r : scalar * Z, entry md r.2) (replicate n (lowest, -1)) = []) as ->.
  { intros n. induction n as [|n IH]; [done|]. cbn. exact IH. }
  rewrite app_nil_r.
  pose proof (length_omap_le (λ r : scalar * Z, entry md r.2)
                (take (Z.to_nat k)
                   (sort_desc (List.filter (λ r, score_ltb lowest r.1)
                                 (imap (λ i v, (inner_product q v, Z.of_nat i)) (xb ix)))))) as Hl.
  rewrite length_take, length_sort_desc in Hl.
  pose proof (List.filter_length_le (λ r : scalar * Z, score_ltb lowest r.1)
                (imap (λ i v, (inner_product q v, Z.of_nat i)) (xb ix))) as Hf.
  rewrite length_imap in Hf. lia.
Qed.

(** *** [save] and [load] *)

Lemma save_store w : store (save w).2 = store w ∧ objects (save w).2 = objects w.
Proof.
  unfold save, bind. cbn [get_store]. by destruct (index (store w)).
Qed.

Lemma load_run w :
  load w
  = (Ok (),
     {| store :=
          {| index := from_option Some (index (store w)) (faiss_index (disk w));
             metadata := from_option (λ vs, seq (length (objects w)) (length vs))
                           (metadata (store w)) (faiss_meta (disk w));
             dim := from_option (λ ix, Some (d ix)) (dim (store w))
                      (faiss_index (disk w)) |};
        objects := objects w ++ default [] (faiss_meta (disk w));
        disk := disk w |}).
Proof.
  unfold load. unfold bind at 1. cbn [get_disk].
  destruct (faiss_meta (disk w)) as [vs|].
  - unfold bind at 1. unfold bind at 1. rewrite alloc_all_run.
    unfold bind. cbn. by destruct (faiss_index (disk w)).
  - unfold bind. cbn. rewrite app_nil_r.
    destruct (faiss_index (disk w)); cbn; [done|]. by rewrite store_eta, world_eta.
Qed.

Lemma load_counts w :
  vector_count (store (load w).2)
  = from_option ntotal (vector_count (store w)) (faiss_index (disk w)) ∧
  len (metadata (store (load w).2))
  = from_option len (len (metadata (store w))) (faiss_meta (disk w)).
Proof.
  rewrite load_run. cbn. unfold vector_count, len. cbn. split.
  - by destruct (faiss_index (disk w)).
  - destruct (faiss_meta (disk w)); cbn; [|done]. by rewrite length_seq.
Qed.

Lemma init_if_needed_count dm w :
  vector_count (store (init_if_needed dm w).2) = vector_count (store w) ∧
  metadata (store (init_if_needed dm w).2) = metadata (store w).
Proof.
  unfold init_if_needed, bind, vector_count. cbn [get_store].
  by destruct (index (store w)) eqn:E; cbn; rewrite ?E.
Qed.

(** Whatever [search] does, it leaves the store and the disk alone and
    keeps every dict that existed; its results are dicts allocated during
    the call, no more of them than there are vectors; and it never raises
    an HTTP exception or, for a query of at least one row, [IndexError]. *)
Lemma search_frame (q : ndarray scalar) k w :
  ∃ r new,
    search q k w = (r, with_objects w (objects w ++ new)) ∧
    (∀ out, r = Ok out →
            Forall (λ l, length (objects w) <= l)%nat out ∧
            len out <= vector_count (store w)) ∧
    (∀ s dt, r ≠ Raise (HTTPException s dt)) ∧
    (rows q ≠ [] → r ≠ Raise IndexError).
Proof.
  assert (∀ r : result (list loc), (r, w) = (r, with_objects w (objects w ++ []))) as Hnil.
  { intros r. unfold with_objects. by rewrite app_nil_r, world_eta. }
  assert (∀ e, (∀ s dt, e ≠ HTTPException s dt) → e ≠ IndexError →
    ∃ (r : result (list loc)) new,
      (Raise e, w) = (r, with_objects w (objects w ++ new)) ∧
      (∀ out, r = Ok out →
              Forall (λ l, length (objects w) <= l)%nat out ∧
              len out <= vector_count (store w)) ∧
      (∀ s dt, r ≠ Raise (HTTPException s dt)) ∧
      (rows q ≠ [] → r ≠ Raise IndexError)) as Hraise.
  { intros e He Hi. exists (Raise e), []. split; [apply Hnil|].
    split; [done|]. split; [|intros _; congruence].
    intros s dt [= E]. by eapply He. }
  assert (vector_count (store w) = 0 →
    ∃ (r : result (list loc)) new,
      search q k w = (r, with_objects w (objects w ++ new)) ∧
      (∀ out, r = Ok out →
              Forall (λ l, length (objects w) <= l)%nat out ∧
              len out <= vector_count (store w)) ∧
      (∀ s dt, r ≠ Raise (HTTPException s dt)) ∧
      (rows q ≠ [] → r ≠ Raise IndexError)) as Hempty.
  { intros Hv. exists (Ok []), []. rewrite search_empty by done.
    split; [apply Hnil|]. split; [|done].
    intros out [= <-]. split; [constructor|]. rewrite Hv. done. }
  destruct (index (store w)) as [ix|] eqn:Hi.
  2:{ apply Hempty. unfold vector_count. by rewrite Hi. }
  destruct (decide (ntotal ix = 0)) as [Hn|Hn].
  { apply Hempty. unfold vector_count. by rewrite Hi. }
  rewrite (search_nonempty _ _ _ ix) by done.
  unfold index_search. cbn [ncols rows].
  destruct (bool_decide (ncols q = d ix)); [|by apply Hraise].
  destruct (0 <? k); [|by apply Hraise].
  destruct (search_shortage _ k) as [[]|]; [by apply Hraise..|].
  destruct (rows q) as [|q0 qs] eqn:Eq.
  { exists (Raise IndexError), []. split; [apply Hnil|].
    split; [done|]. split; [done|]. intros Hq. by destruct Hq. }
  rewrite !fmap_cons, py_getitem_first.
  destruct (search_loop_frame (flat_search ix k (l2_normalize q0)) [] w)
    as (new & -> & Hlen).
  eexists _, new. split; [done|]. split; [|done].
  intros out [= <-]. cbn [app]. split.
  - apply Forall_forall. intros l Hl%elem_of_seq. lia.
  - unfold len. rewrite length_seq, Hlen. unfold vector_count. rewrite Hi.
    cbn [from_option]. apply flat_search_hits.
Qed.

(** C3 (as amended): the invariant [len(vectors) == len(metadata)] is
    kept by [init_if_needed], by [add] when it is given as many vectors as
    records, by [search] and by [save].  [load] puts the counts of the
    artifacts it finds in place of the store's own, so after [load] the
    invariant holds exactly when the vector count of the index artifact
    (the store's own when that artifact is absent) equals the record count
    of the metadata artifact (the store's own when absent). *)
Theorem count_invariant_operations w :
  count_invariant (store w) →
  (∀ dm, count_invariant (store (init_if_needed dm w).2)) ∧
  (∀ embs metas, length (rows embs) = length metas →
                 count_invariant (store (add embs metas w).2)) ∧
  (∀ q k, count_invariant (store (search q k w).2)) ∧
  count_invariant (store (save w).2) ∧
  (count_invariant (store (load w).2) ↔
   from_option ntotal (vector_count (store w)) (faiss_index (disk w))
   = from_option len (len (metadata (store w))) (faiss_meta (disk w))).
Proof.
  unfold count_invariant. intros Hinv. repeat split.
  - intros dm. destruct (init_if_needed_count dm w) as [-> ->]. done.
  - intros embs metas Hlen.
    destruct (add_cases embs metas w) as (r & s & -> & [->|(_ & Hm & Hv)]); cbn [snd with_store store]; [done|].
    rewrite Hv, Hm, Hinv. unfold len. rewrite length_app. lia.
  - intros q k. destruct (search_frame q k w) as (r & new & -> & _). done.
  - destruct (save_store w) as [-> _]. done.
  - destruct (load_counts w) as [-> ->]. done.
  - destruct (load_counts w) as [-> ->]. done.
Qed.

(** C4: on a store whose index has dimension [d], [add] with at least
    one vector of another width raises (the assertion of the faiss wrapper)
    and leaves the world as it was: same vectors, same metadata list. *)
Theorem add_dimension_mismatch_no_mutation w ix embs metas :
  index (store w) = Some ix → rows embs ≠ [] → ncols embs ≠ d ix →
  add embs metas w = (Raise AssertionError, w) ∧
  vector_count (store (add embs metas w).2) = vector_count (store w) ∧
  metadata (store (add embs metas w).2) = metadata (store w).
Proof.
  intros Hi Hr Hd. by rewrite (add_mismatch embs metas w ix).
Qed.

(** C6: [search] returns the empty list when the store has no index or
    no vector, for every query and every [k].  Whenever it returns, for
    every query and every [k], it returns at most as many results as the
    store holds vectors: at most [m] when the store holds [m < k].  And it
    does return for a query of the index's width with at least one row
    when [k > 0] and the result arrays can be allocated. *)
Theorem search_empty_or_bounded w (q : ndarray scalar) k :
  (vector_count (store w) = 0 → search q k w = (Ok [], w)) ∧
  (∀ out w' m, search q k w = (Ok out, w') →
               vector_count (store w) = m → len out <= m) ∧
  (∀ ix, index (store w) = Some ix → ncols q = d ix → rows q ≠ [] → 0 < k →
         search_shortage (len (rows q)) k = None →
         ∃ out w', search q k w = (Ok out, w')).
Proof.
  split; [apply search_empty|]. split.
  - intros out w' m Es <-.
    destruct (search_frame q k w) as (r & new & Er & Hb & _).
    rewrite Er in Es. injection Es as -> _. by apply Hb.
  - intros ix Hi Hd Hq Hk Hs.
    destruct (decide (ntotal ix = 0)) as [Hn|Hn].
    { exists [], w. rewrite search_empty; [done|]. unfold vector_count. by rewrite Hi. }
    rewrite (search_nonempty _ _ _ ix) by done.
    unfold index_search. cbn [ncols rows].
    rewrite bool_decide_eq_true_2 by done.
    apply Z.ltb_lt in Hk as ->.
    replace (len (l2_normalize <$> rows q)) with (len (rows q))
      by (unfold len; by rewrite length_fmap).
    rewrite Hs. destruct (rows q) as [|q0 qs]; [done|].
    rewrite !fmap_cons, py_getitem_first.
    destruct (search_loop_frame (flat_search ix k (l2_normalize q0)) [] w)
      as (new & -> & _).
    by eexists _, _.
Qed.

(** C9: the result loop of [search] runs to its end on every store
    state and every raw row: ids below 0 or from [len(metadata)] on are
    skipped, every other id yields one result, the copy of
    [metadata[idx]] with the score set, and no lookup is out of range.
    With a query of at least one row, [search] as a whole never raises
    [IndexError], whether or not the vector count and the number of
    records agree. *)
Theorem search_total_on_any_state w :
  well_formed w →
  (∀ raw, let new := expected_hits (metadata (store w)) (objects w) raw in
          search_loop raw [] w
          = (Ok (seq (length (objects w)) (length new)),
             with_objects w (objects w ++ new))) ∧
  (∀ idx, (idx < 0 ∨ len (metadata (store w)) <= idx) →
          entry (metadata (store w)) idx = None) ∧
  (∀ idx l, entry (metadata (store w)) idx = Some l →
            0 <= idx < len (metadata (store w)) ∧
            metadata (store w) !! Z.to_nat idx = Some l) ∧
  (∀ q k, rows q ≠ [] → (search q k w).1 ≠ Raise IndexError).
Proof.
  intros Hwf. split; [|split; [|split]].
  - intros raw. apply (search_loop_hits raw [] w Hwf).
  - intros idx Hidx. apply entry_None. lia.
  - intros idx l E. destruct (entry_Some _ _ _ E) as [C _]. split; [lia|].
    unfold entry in E. by destruct (idx <? 0).
  - intros q k Hq.
    destruct (index (store w)) as [ix|] eqn:Hi.
    2:{ rewrite search_empty; [done|]. unfold vector_count. by rewrite Hi. }
    destruct (decide (ntotal ix = 0)) as [Hn|Hn].
    { rewrite search_empty; [done|]. unfold vector_count. by rewrite Hi. }
    rewrite (search_nonempty _ _ _ ix) by done.
    unfold index_search. cbn [ncols rows].
    destruct (bool_decide (ncols q = d ix)); [|done].
    destruct (0 <? k); [|done].
    destruct (search_shortage _ k) as [[]|]; [done..|].
    destruct (rows q) as [|q0 qs]; [done|]. rewrite !fmap_cons, py_getitem_first.
    by destruct (search_loop_frame (flat_search ix k (l2_normalize q0)) [] w)
      as (new & -> & _).
Qed.
End store_facts.

(** ** Properties of the UTF-8 decoder *)

(** With the [ignore] handler the decoder returns a text for every byte
    string, and the text is the strict decoding of the input with some
    bytes left out. *)
Lemma utf8_decode_ignore_drops (bs : list byte) :
  ∃ text kept,
    utf8_decode ignore bs = Ok text ∧ kept `sublist_of` bs ∧
    utf8_decode strict kept = Ok text.
Proof.
  remember (length bs) as n eqn:Hn.
  assert (length bs <= n)%nat as Hle by lia. clear Hn.
  revert bs Hle. induction n as [|n IH]; intros bs Hle.
  { destruct bs; [|cbn in Hle; lia]. by exists [], []. }
  destruct bs as [|b1 r1]; [by exists [], []|].
  cbn [length] in Hle.
  assert (∀ r, (length r <= length r1)%nat → r `sublist_of` r1 →
     ∃ text kept, utf8_decode ignore r = Ok text ∧ kept `sublist_of` b1 :: r1 ∧
                  utf8_decode strict kept = Ok text) as Hskip.
  { intros r Hr Hs. destruct (IH r) as (t & kept & E1 & S1 & E2); [lia|].
    exists t, kept. split; [done|]. split; [|done].
    apply sublist_cons. by etrans. }
  assert (∃ text kept, Ok [] = Ok text ∧ kept `sublist_of` b1 :: r1 ∧
                       utf8_decode strict kept = Ok text) as Hend.
  { exists [], []. split; [done|]. split; [apply sublist_nil_l|done]. }
  cbn [utf8_decode on_error].
  destruct (Byte.to_N b1 <? 128)%N eqn:C1.
  { destruct (IH r1) as (t & kept & -> & S1 & E2); [lia|].
    exists (Byte.to_N b1 :: t), (b1 :: kept). split; [done|].
    split; [by apply sublist_skip|]. cbn [utf8_decode]. by rewrite C1, E2. }
  destruct (Byte.to_N b1 <? 194)%N eqn:C2; [by apply Hskip|].
  destruct (Byte.to_N b1 <? 224)%N eqn:C3.
  { destruct r1 as [|b2 r2]; [exact Hend|].
    destruct (is_continuation (Byte.to_N b2)) eqn:K2; [|by apply Hskip].
    destruct (IH r2) as (t & kept & -> & S1 & E2); [cbn in Hle; lia|].
    eexists (_ :: t), (b1 :: b2 :: kept). split; [done|].
    split; [by do 2 apply sublist_skip|]. cbn [utf8_decode].
    by rewrite C1, C2, C3, K2, E2. }
  destruct (Byte.to_N b1 <? 240)%N eqn:C4.
  { destruct r1 as [|b2 r2]; [exact Hend|].
    destruct (negb (is_continuation (Byte.to_N b2)) || _) eqn:K2; [by apply Hskip|].
    destruct r2 as [|b3 r3]; [exact Hend|].
    destruct (is_continuation (Byte.to_N b3)) eqn:K3.
    2:{ apply Hskip; [cbn; lia|]. apply sublist_cons. done. }
    destruct (IH r3) as (t & kept & -> & S1 & E2); [cbn in Hle; lia|].
    eexists (_ :: t), (b1 :: b2 :: b3 :: kept). split; [done|].
    split; [by do 3 apply sublist_skip|]. cbn [utf8_decode].
    by rewrite C1, C2, C3, C4, K2, K3, E2. }
  destruct (Byte.to_N b1 <? 245)%N eqn:C5; [|by apply Hskip].
  destruct r1 as [|b2 r2]; [exact Hend|].
  destruct (negb (is_continuation (Byte.to_N b2)) || _) eqn:K2; [by apply Hskip|].
  destruct r2 as [|b3 r3]; [exact Hend|].
  destruct (is_continuation (Byte.to_N b3)) eqn:K3; cbn [negb].
  2:{ apply Hskip; [cbn; lia|]. apply sublist_cons. done. }
  destruct r3 as [|b4 r4]; [exact Hend|].
  destruct (is_continuation (Byte.to_N b4)) eqn:K4.
  2:{ apply Hskip; [cbn; lia|]. do 2 apply sublist_cons. done. }
  destruct (IH r4) as (t & kept & -> & S1 & E2); [cbn in Hle; lia|].
  eexists (_ :: t), (b1 :: b2 :: b3 :: b4 :: kept). split; [done|].
  split; [by do 4 apply sublist_skip|]. cbn [utf8_decode].
  by rewrite C1, C2, C3, C4, C5, K2, K3, K4, E2.
Qed.

(** ** Properties of the handlers *)

Section handler_facts.
Context {scalar : Type} `{Float32 scalar} `{Collaborators scalar}.
Implicit Types (w : world scalar) (h vs : list (meta scalar)).

(** C10: a file whose lower-cased name ends neither in [.pdf] nor in
    [.csv] is read with [b.decode("utf-8", errors="ignore")], which returns
    a text for every byte content: the strict decoding of the content with
    the undecodable bytes left out.  Ingestion goes on with that text. *)
Theorem plain_file_text_never_raises (f : UploadFile) (ts : N) :
  endswith (lower (filename f)) (U ".pdf") = false →
  endswith (lower (filename f)) (U ".csv") = false →
  ∃ text kept,
    utf8_decode ignore (content f) = Ok text ∧
    kept `sublist_of` content f ∧
    utf8_decode strict kept = Ok text ∧
    ∀ w, ingest_file f ts w
         = ingest_text (Some (filename f)) None (filename f) ts text w.
Proof.
  intros Hpdf Hcsv.
  destruct (utf8_decode_ignore_drops (content f)) as (text & kept & E & S & E').
  exists text, kept. repeat split; try done.
  intros w. unfold ingest_file. rewrite Hpdf, Hcsv.
  unfold bind at 1, lift at 1. by rewrite E.
Qed.

(** C7: [query_endpoint] raises the HTTP 400 exception exactly when the
    query text is empty; and whatever it returns or raises, the store (its
    index, its list of records, its dimension) and the disk are as before
    and every dict that existed before the call still exists with the same
    content.  The results of [search] are dicts allocated during the
    call. *)
Theorem query_endpoint_validates_and_reads_only (req : QueryRequest) w :
  ((∃ detail, (query_endpoint req w).1 = Raise (HTTPException 400 detail))
   ↔ query req = []) ∧
  store (query_endpoint req w).2 = store w ∧
  disk (query_endpoint req w).2 = disk w ∧
  objects w `prefix_of` objects (query_endpoint req w).2 ∧
  (∀ out, (search (encode [query req]) (top_k req) w).1 = Ok out →
          Forall (λ l, length (objects w) <= l)%nat out).
Proof.
  assert (∀ out, (search (encode [query req]) (top_k req) w).1 = Ok out →
                 Forall (λ l, length (objects w) <= l)%nat out) as Hnew.
  { intros out E.
    destruct (search_frame (encode [query req]) (top_k req) w)
      as (r & new & Es & Hb & _).
    rewrite Es in E. cbn in E. by apply Hb. }
  unfold query_endpoint. destruct (query req) as [|c q] eqn:Eq.
  { unfold raise. cbn [fst snd]. repeat split; eauto. }
  destruct (search_frame (encode [c :: q]) (top_k req) w)
    as (r & new & Es & _ & Hh & _).
  unfold bind. rewrite Es.
  destruct r as [out|e];
    cbn [fst snd dump with_objects objects store disk];
    (split; [split; [|done]|]);
    [by intros [? [=]]| |intros [dt [= ->]]; by destruct (Hh 400 dt)|];
    (split; [done|]); (split; [done|]);
    (split; [by eexists|intros o E; apply Hnew; by rewrite Es]).
Qed.

(** [GET /meta] for a positive [n]: the count of records and the last
    [n] of them (all when there are fewer), newest first. *)
Lemma get_meta_positive n w :
  0 < n →
  get_meta n w
  = (Ok {| total := len (metadata (store w));
           items := deref (objects w)
                    <$> reverse (drop (length (metadata (store w)) - Z.to_nat n)
                                   (metadata (store w))) |}, w).
Proof.
  intros Hn. unfold get_meta, bind, dump, ret. cbn [get_store].
  do 4 f_equal. unfold py_slice, slice_index, len. cbn [from_option].
  assert ((- n <? 0) = true) as -> by lia.
  set (m := length (metadata (store w))).
  destruct (decide (Z.of_nat m <= n)).
  - rewrite Z.max_l by lia. replace (m - Z.to_nat n)%nat with 0%nat by lia.
    change (Z.to_nat 0) with 0%nat. f_equal. apply take_ge. rewrite drop_0. subst m. lia.
  - rewrite Z.max_r by lia.
    replace (Z.to_nat (- n + Z.of_nat m)) with (m - Z.to_nat n)%nat by lia.
    f_equal. apply take_ge. rewrite length_drop. subst m. lia.
Qed.
End handler_facts.

(** After two batches [GET /meta?n=1] answers with the one most recent
    record. *)
Example get_meta_one_after_two_batches :
  ∃ newest, (get_meta 1 after_memo).1 = Ok {| total := 2; items := [newest] |} ∧
            text newest = U "Guidance was cut!".
Proof. eexists. split; [vm_compute; reflexivity|reflexivity]. Qed.

(** C8 (refuted on the code): [metadata[-n:]] with [n = 0] is the whole
    list, so [GET /meta?n=0] on a store of two records answers with both
    records, newest first, where zero items were asked for. *)
Theorem get_meta_zero_returns_everything :
  ∃ newest oldest,
    (get_meta 0 after_memo).1 = Ok {| total := 2; items := [newest; oldest] |} ∧
    text newest = U "Guidance was cut!" ∧
    text oldest = U "Revenue grew. Margins fell.".
Proof. eexists _, _. split; [vm_compute; reflexivity|]. split; reflexivity. Qed.

(** ** Chunk ids *)

Lemma uint_digits_inj (u v : Decimal.uint) : uint_digits u = uint_digits v → u = v.
Proof.
  revert v. induction u as [|u IH|u IH|u IH|u IH|u IH|u IH|u IH|u IH|u IH|u IH];
    intros [|v|v|v|v|v|v|v|v|v|v] E; cbn in E; try discriminate; try done;
    injection E as E; f_equal; by apply IH.
Qed.

Lemma decimal_inj (m n : N) : decimal m = decimal n → m = n.
Proof. intros E%uint_digits_inj. by apply DecimalN.Unsigned.to_uint_inj. Qed.

(** No digit is the underscore. *)
Lemma decimal_no_underscore (n : N) : 95%N ∉ decimal n.
Proof.
  unfold decimal. induction (N.to_uint n); cbn [uint_digits];
    rewrite ?elem_of_cons; [apply not_elem_of_nil|..]; intros [?|?]; done.
Qed.

(** A text is cut in one way only at its last underscore. *)
Lemma last_underscore_inj (a b x y : list N) :
  95%N ∉ x → 95%N ∉ y → a ++ 95%N :: x = b ++ 95%N :: y → a = b ∧ x = y.
Proof.
  intros Hx Hy E.
  assert (reverse x ++ 95%N :: reverse a = reverse y ++ 95%N :: reverse b) as E'.
  { apply (f_equal reverse) in E. rewrite !reverse_app, !reverse_cons in E.
    by rewrite <- !app_assoc in E. }
  assert (95%N ∉ reverse x) as Hx' by by rewrite elem_of_reverse.
  assert (95%N ∉ reverse y) as Hy' by by rewrite elem_of_reverse.
  enough (reverse x = reverse y ∧ reverse a = reverse b) as [Ex Ea].
  { split; apply (inj reverse); done. }
  clear E Hx Hy. revert E' Hx' Hy'. generalize (reverse y) as y'.
  induction (reverse x) as [|c x' IH]; intros [|c' y'] E Hx Hy; cbn in E.
  - by injection E as ->.
  - injection E as <- _. by apply not_elem_of_cons in Hy as [? _].
  - injection E as -> _. by apply not_elem_of_cons in Hx as [? _].
  - injection E as -> E. apply not_elem_of_cons in Hx as [_ Hx].
    apply not_elem_of_cons in Hy as [_ Hy].
    destruct (IH y' E Hx Hy) as [-> ->]. done.
Qed.

Lemma chunk_id_of_cut p (ts : N) (i : nat) :
  chunk_id_of p ts i = (p ++ 95%N :: decimal ts) ++ 95%N :: decimal (N.of_nat i).
Proof. unfold chunk_id_of. change (U "_") with [95%N]. by rewrite <- app_assoc. Qed.

(** A chunk id determines its prefix, its timestamp and its index. *)
Lemma chunk_id_of_inj p p' (ts ts' : N) (i i' : nat) :
  chunk_id_of p ts i = chunk_id_of p' ts' i' → p = p' ∧ ts = ts' ∧ i = i'.
Proof.
  rewrite !chunk_id_of_cut.
  intros [E1 E2]%last_underscore_inj; [|apply decimal_no_underscore..].
  apply last_underscore_inj in E1 as [-> E3]; [|apply decimal_no_underscore..].
  apply decimal_inj in E2, E3. split; [done|]. split; [done|lia].
Qed.

Lemma NoDup_item_ids (c : list N * N * nat) : NoDup (item_ids c).
Proof.
  unfold item_ids. apply NoDup_fmap_2_strong; [|apply NoDup_seq].
  intros i i' _ _ E. by apply chunk_id_of_inj in E as (_ & _ & ->).
Qed.

Lemma elem_of_item_ids (x : list N) (c : list N * N * nat) :
  x ∈ item_ids c → ∃ i, x = chunk_id_of c.1.1 c.1.2 i.
Proof. unfold item_ids. intros (i & -> & _)%list_elem_of_fmap. eauto. Qed.

(** Items that differ in prefix or timestamp have no chunk id in common. *)
Lemma NoDup_concat_item_ids (cs : list (list N * N * nat)) :
  NoDup (fst <$> cs) → NoDup (concat (item_ids <$> cs)).
Proof.
  induction cs as [|c cs IH]; [constructor|].
  rewrite fmap_cons. intros [Hc Hcs]%NoDup_cons. cbn [fmap list_fmap concat].
  apply NoDup_app. split; [apply NoDup_item_ids|]. split; [|by apply IH].
  intros x [i ->]%elem_of_item_ids Hin.
  apply list_elem_of_In, in_concat in Hin as (l & Hl & Hx).
  apply list_elem_of_In, list_elem_of_fmap in Hl as (c' & -> & Hc').
  apply list_elem_of_In, elem_of_item_ids in Hx as [i' E].
  apply chunk_id_of_inj in E as (E1 & E2 & _).
  apply Hc, list_elem_of_fmap. exists c'. split; [|done].
  destruct c as [[p ts] n], c' as [[p' ts'] n']. cbn in *. congruence.
Qed.

(** ** Ingestion *)

Section ingestion_facts.
Context {scalar : Type} `{Float32 scalar} `{Collaborators scalar}.
Implicit Types (w : world scalar) (h vs : list (meta scalar))
  (cs : list (list N * N * nat)).

Lemma ingested_refl w : ingested [] w w.
Proof.
  split; [done|]. exists []. rewrite app_nil_r. split; [done|].
  split; [constructor|done].
Qed.

Lemma ingested_trans cs1 cs2 w w1 w2 :
  ingested cs1 w w1 → ingested cs2 w1 w2 → ingested (cs1 ++ cs2) w w2.
Proof.
  intros [P1 (n1 & M1 & F1 & I1)] [P2 (n2 & M2 & F2 & I2)].
  split; [by etrans|]. exists (n1 ++ n2).
  destruct P2 as [ext E2].
  split; [by rewrite M2, M1, <- app_assoc|]. split.
  - apply Forall_app. split; [|done]. eapply Forall_impl; [exact F1|].
    intros l Hl. cbn in Hl. rewrite E2, length_app. lia.
  - rewrite !fmap_app, concat_app, I2, <- I1. f_equal.
    apply Forall_fmap_ext_1. eapply Forall_impl; [exact F1|].
    intros l Hl. cbn in Hl. cbn. by rewrite E2, deref_app_old.
Qed.

(** A step that leaves the list of records alone and only allocates. *)
Lemma ingested_nothing w s h :
  metadata s = metadata (store w) →
  ingested [] w {| store := s; objects := objects w ++ h; disk := disk w |}.
Proof.
  intros E. split; [by eexists|]. exists []. cbn. rewrite app_nil_r.
  split; [done|]. split; [constructor|done].
Qed.

Lemma deref_seq_new h vs :
  deref (h ++ vs) <$> seq (length h) (length vs) = vs.
Proof.
  apply list_eq. intros i. rewrite list_lookup_fmap.
  destruct (decide (i < length vs)%nat) as [Hi|Hi].
  - rewrite lookup_seq_lt by done. cbn. unfold deref.
    rewrite lookup_app_r by lia. replace (length h + i - length h)%nat with i by lia.
    destruct (lookup_lt_is_Some_2 vs i Hi) as [v ->]. done.
  - rewrite lookup_seq_ge by lia. cbn. symmetry. apply lookup_ge_None. lia.
Qed.

Lemma build_metas_ids (t u : option (list N)) p ts (parts : list (list N)) :
  chunk_id <$> build_metas (scalar:=scalar) t u p ts parts
  = item_ids (p, ts, length parts).
Proof.
  unfold build_metas, item_ids. cbn [fst snd].
  apply list_eq. intros i. rewrite !list_lookup_fmap, list_lookup_imap.
  destruct (decide (i < length parts)%nat) as [Hi|Hi].
  - rewrite lookup_seq_lt by done.
    destruct (lookup_lt_is_Some_2 parts i Hi) as [v ->]. done.
  - rewrite lookup_seq_ge by lia. by rewrite (lookup_ge_None_2 parts i) by lia.
Qed.

(** The common tail adds the records of one item, all or none. *)
Lemma embed_and_add_ingested (t u : option (list N)) p ts (parts : list (list N)) w :
  ∃ cs, ingested cs w (embed_and_add t u p ts parts w).2 ∧
        (cs = [] ∨ cs = [(p, ts, length parts)]).
Proof.
  unfold embed_and_add. unfold bind at 1. rewrite alloc_all_run.
  set (vs := build_metas t u p ts parts).
  set (w1 := with_objects w (objects w ++ vs)).
  unfold bind.
  destruct (add_cases (encode parts) (seq (length (objects w)) (length vs)) w1)
    as (r & s & -> & Hs).
  subst w1. unfold with_store, with_objects in *. cbn [store objects disk] in *.
  destruct Hs as [->|(-> & Hm & _)].
  - exists []. split; [|by left].
    destruct r; cbn [snd ret]; apply (ingested_nothing w (store w) vs); done.
  - exists [(p, ts, length parts)]. split; [|by right].
    cbn [snd ret]. split; [by eexists|].
    exists (seq (length (objects w)) (length vs)). cbn [store objects].
    split; [exact Hm|]. split.
    + apply Forall_forall. intros l Hl%elem_of_seq. rewrite length_app. lia.
    + cbn [fmap list_fmap concat]. rewrite app_nil_r.
      rewrite <- build_metas_ids with (t := t) (u := u).
      rewrite (list_fmap_compose (deref (objects w ++ vs)) chunk_id).
      by rewrite deref_seq_new.
Qed.

Lemma ingest_text_ingested (t u : option (list N)) p ts (text : list N) w :
  ∃ cs n, ingested cs w (ingest_text t u p ts text w).2 ∧
          (cs = [] ∨ cs = [(p, ts, n)]).
Proof.
  unfold ingest_text, bind, lift.
  destruct (split_text text CHUNK_SIZE CHUNK_OVERLAP) as [parts|e].
  - destruct (embed_and_add_ingested t u p ts parts w) as (cs & Hi & Hc).
    by exists cs, (length parts).
  - exists [], 0%nat. split; [apply ingested_refl|by left].
Qed.

Lemma ingest_file_ingested (f : UploadFile) ts w :
  ∃ cs n, ingested cs w (ingest_file f ts w).2 ∧
          (cs = [] ∨ cs = [(filename f, ts, n)]).
Proof.
  unfold ingest_file.
  destruct (endswith (lower (filename f)) (U ".pdf")).
  { unfold bind at 1, lift at 1. destruct (pdf_pages (content f)) as [pages|e].
    - apply ingest_text_ingested.
    - exists [], 0%nat. split; [apply ingested_refl|by left]. }
  destruct (endswith (lower (filename f)) (U ".csv")).
  { unfold bind at 1, lift at 1. destruct (read_csv (content f)) as [df|e].
    - destruct (embed_and_add_ingested (Some (filename f)) None (filename f) ts
                  (csv_rows df) w) as (cs & Hi & Hc).
      by exists cs, (length (csv_rows df)).
    - exists [], 0%nat. split; [apply ingested_refl|by left]. }
  unfold bind at 1, lift at 1. destruct (utf8_decode ignore (content f)) as [text|e].
  - apply ingest_text_ingested.
  - exists [], 0%nat. split; [apply ingested_refl|by left].
Qed.

Lemma ingest_url_ingested (u : list N) ts w :
  ∃ cs n, ingested cs w (ingest_url u ts w).2 ∧
          (cs = [] ∨ cs = [(U "url", ts, n)]).
Proof.
  unfold ingest_url.
  destruct (match fetch_url u with Some ((_ :: _) as h) => extract h | _ => None end)
    as [[|c text]|]; try apply ingest_text_ingested;
    exists [], 0%nat; (split; [apply ingested_refl|by left]).
Qed.

Lemma ingest_loop_ingested (files : list (UploadFile * N)) acc w :
  ∃ cs, ingested cs w (ingest_loop files acc w).2 ∧
        (fst <$> cs) `sublist_of` ((λ x, (filename x.1, x.2)) <$> files).
Proof.
  revert acc w. induction files as [|[f ts] files IH]; intros acc w.
  { exists []. split; [apply ingested_refl|done]. }
  cbn [ingest_loop]. unfold bind.
  destruct (ingest_file_ingested f ts w) as (cs & n & Hi & Hc).
  destruct (ingest_file f ts w) as [[k|e] w1]; cbn [snd] in *.
  - destruct (IH (acc + k) w1) as (cs' & Hi' & Hs').
    exists (cs ++ cs'). split; [by eapply ingested_trans|].
    rewrite fmap_app, fmap_cons. cbn [fst snd].
    destruct Hc as [->| ->]; cbn; [by apply sublist_cons|by apply sublist_skip].
  - exists cs. split; [done|].
    destruct Hc as [->| ->]; cbn; [apply sublist_nil_l|].
    apply sublist_skip, sublist_nil_l.
Qed.

Lemma ingest_urls_loop_ingested (urls : list (list N * N)) acc w :
  ∃ cs, ingested cs w (ingest_urls_loop urls acc w).2 ∧
        (fst <$> cs) `sublist_of` ((λ x, (U "url", x.2)) <$> urls).
Proof.
  revert acc w. induction urls as [|[u ts] urls IH]; intros acc w.
  { exists []. split; [apply ingested_refl|done]. }
  cbn [ingest_urls_loop]. unfold bind.
  destruct (ingest_url_ingested u ts w) as (cs & n & Hi & Hc).
  destruct (ingest_url u ts w) as [[k|e] w1]; cbn [snd] in *.
  - destruct (IH (acc + k) w1) as (cs' & Hi' & Hs').
    exists (cs ++ cs'). split; [by eapply ingested_trans|].
    rewrite fmap_app, fmap_cons. cbn [fst snd].
    destruct Hc as [->| ->]; cbn; [by apply sublist_cons|by apply sublist_skip].
  - exists cs. split; [done|].
    destruct Hc as [->| ->]; cbn; [apply sublist_nil_l|].
    apply sublist_skip, sublist_nil_l.
Qed.

(** [save] changes neither the records nor the dicts. *)
Lemma ingested_then_save cs w (m : M scalar Z) :
  ingested cs w (m w).2 → ingested cs w ((a <- m ;; save ;; ret a) w).2.
Proof.
  intros Hi. unfold bind at 1. destruct (m w) as [[a|e] w1]; [|done].
  cbn [snd] in Hi. unfold bind.
  destruct (save_store w1) as [Es Eo].
  destruct (save w1) as [[[]|e] w2]; cbn [snd ret] in *;
    destruct Hi as [P (new & M1 & F1 & I1)];
    (split; [by rewrite Eo|]); exists new; by rewrite Es, Eo.
Qed.

Lemma ingested_NoDup cs w w' :
  ingested cs w w' → NoDup (fst <$> cs) → NoDup (added_ids w w').
Proof.
  intros [_ (new & M1 & _ & I1)] Hnd. unfold added_ids, added_records.
  rewrite M1, drop_app_length, <- list_fmap_compose.
  change (chunk_id ∘ deref (objects w')) with (λ l, chunk_id (deref (objects w') l)).
  rewrite I1. by apply NoDup_concat_item_ids.
Qed.

(** C2 (as amended): in one batch in which no two items share both the
    prefix of their chunk ids (the file name for [POST /ingest], the
    constant ["url"] for [POST /ingest/urls]) and the timestamp taken while
    the item is processed, the chunk ids of all records added by the batch
    are pairwise distinct. *)
Theorem chunk_ids_distinct_when_stamps_differ w
    (files : list (UploadFile * N)) (urls : list (list N * N)) :
  NoDup ((λ x, (filename x.1, x.2)) <$> files) →
  NoDup (snd <$> urls) →
  NoDup (added_ids w (ingest files w).2) ∧
  NoDup (added_ids w (ingest_urls urls w).2).
Proof.
  intros Hf Hu. split.
  - destruct (ingest_loop_ingested files 0 w) as (cs & Hi & Hs).
    apply (ingested_NoDup cs); [by apply ingested_then_save|].
    by eapply sublist_NoDup.
  - destruct (ingest_urls_loop_ingested urls 0 w) as (cs & Hi & Hs).
    apply (ingested_NoDup cs); [by apply ingested_then_save|].
    eapply sublist_NoDup; [|exact Hs].
    change (NoDup ((λ ts : N, (U "url", ts)) ∘ snd <$> urls)).
    rewrite (list_fmap_compose snd (λ ts : N, (U "url", ts))).
    apply NoDup_fmap_2; [|done]. by intros ts ts' [= ->].
Qed.
End ingestion_facts.

(** ** The properties on the example worlds *)

(** C2 (refuted on the code): two URLs of one batch processed within the
    same second both get the chunk id ["url_100_0"]. *)
Lemma chunk_ids_collide_within_a_second :
  added_ids (initial no_files)
    (ingest_urls [(U "https://a.example/q3", 100%N);
                  (U "https://b.example/q3", 100%N)] (initial no_files)).2
  = [U "url_100_0"; U "url_100_0"] ∧
  ¬ NoDup (added_ids (initial no_files)
             (ingest_urls [(U "https://a.example/q3", 100%N);
                           (U "https://b.example/q3", 100%N)] (initial no_files)).2).
Proof.
  assert (added_ids (initial no_files)
    (ingest_urls [(U "https://a.example/q3", 100%N);
                  (U "https://b.example/q3", 100%N)] (initial no_files)).2
    = [U "url_100_0"; U "url_100_0"]) as E by (vm_compute; reflexivity).
  split; [exact E|]. rewrite E. intros [Hn _]%NoDup_cons. apply Hn. by left.
Qed.

Lemma chunk_ids_distinct_when_stamps_differ_witness :
  NoDup (added_ids (initial no_files)
           (ingest [(notes_txt, 100%N); (memo_txt, 100%N)] (initial no_files)).2) ∧
  NoDup (added_ids (initial no_files)
           (ingest_urls [(U "https://a.example/q3", 100%N);
                         (U "https://b.example/q3", 101%N)] (initial no_files)).2).
Proof.
  apply (chunk_ids_distinct_when_stamps_differ (initial no_files)
           [(notes_txt, 100%N); (memo_txt, 100%N)]
           [(U "https://a.example/q3", 100%N); (U "https://b.example/q3", 101%N)]).
  - apply NoDup_cons. split; [|apply NoDup_singleton].
    intros Hin%list_elem_of_singleton. vm_compute in Hin. discriminate Hin.
  - apply NoDup_cons. split; [|apply NoDup_singleton].
    intros Hin%list_elem_of_singleton. discriminate Hin.
Defined.

(** C3 (refuted on the code): at start, with a one-record metadata file
    and no index file on disk, [load] leaves the store with one record and
    no vector. *)
Lemma load_breaks_count_invariant :
  count_invariant (store (initial meta_file_only)) ∧
  vector_count (store (load (initial meta_file_only)).2) = 0 ∧
  len (metadata (store (load (initial meta_file_only)).2)) = 1 ∧
  ¬ count_invariant (store (load (initial meta_file_only)).2).
Proof.
  split; [reflexivity|]. split; [reflexivity|]. split; [reflexivity|].
  unfold count_invariant. vm_compute. discriminate.
Qed.

Lemma count_invariant_operations_witness :
  (∀ dm, count_invariant (store (init_if_needed dm after_notes).2)) ∧
  (∀ embs metas, length (rows embs) = length metas →
                 count_invariant (store (add embs metas after_notes).2)) ∧
  (∀ q k, count_invariant (store (search q k after_notes).2)) ∧
  count_invariant (store (save after_notes).2) ∧
  (count_invariant (store (load after_notes).2) ↔
   from_option ntotal (vector_count (store after_notes)) (faiss_index (disk after_notes))
   = from_option len (len (metadata (store after_notes))) (faiss_meta (disk after_notes))).
Proof. apply (count_invariant_operations after_notes). reflexivity. Defined.

Lemma add_dimension_mismatch_no_mutation_witness :
  add {| ncols := 2; rows := [[3; 4]] |} [1%nat] after_notes
  = (Raise AssertionError, after_notes) ∧
  vector_count (store (add {| ncols := 2; rows := [[3; 4]] |} [1%nat] after_notes).2)
  = vector_count (store after_notes) ∧
  metadata (store (add {| ncols := 2; rows := [[3; 4]] |} [1%nat] after_notes).2)
  = metadata (store after_notes).
Proof.
  apply (add_dimension_mismatch_no_mutation after_notes {| d := 1; xb := [[27]] |});
    [reflexivity|discriminate|cbn; lia].
Defined.

(** A [k] whose result arrays do not fit makes [search] raise, and the
    world stays as it was. *)
Example search_k_does_not_fit :
  search {| ncols := 1; rows := [[5]] |} (2 ^ 63) after_notes
  = (Raise ValueError, after_notes).
Proof. vm_compute. reflexivity. Qed.

Lemma search_empty_or_bounded_witness :
  search {| ncols := 1; rows := [[5]] |} 3 (initial no_files)
  = (Ok [], initial no_files) ∧
  ∃ out w', search {| ncols := 1; rows := [[5]] |} 3 after_notes = (Ok out, w') ∧
            len out <= 1.
Proof.
  split.
  - apply (proj1 (search_empty_or_bounded (initial no_files) _ 3)). reflexivity.
  - destruct (search_empty_or_bounded after_notes {| ncols := 1; rows := [[5]] |} 3)
      as (_ & Hbound & Hreturns).
    destruct (Hreturns {| d := 1; xb := [[27]] |}) as (out & w' & E);
      [reflexivity|reflexivity|discriminate|lia|reflexivity|].
    exists out, w'. split; [exact E|]. apply (Hbound out w' 1 E). reflexivity.
Defined.

Lemma search_total_on_any_state_witness :
  search_loop [(7, 0); (9, -1); (4, 1); (2, 5)] [] after_memo
  = (Ok [2%nat; 3%nat],
     with_objects after_memo
       (objects after_memo
        ++ [set_score (deref (objects after_memo) 0%nat) 7;
            set_score (deref (objects after_memo) 1%nat) 4])).
Proof.
  apply (proj1 (search_total_on_any_state after_memo
                  ltac:(repeat constructor)) [(7, 0); (9, -1); (4, 1); (2, 5)]).
Defined.

Lemma plain_file_text_never_raises_witness :
  ∃ text kept,
    utf8_decode ignore (content notes_txt) = Ok text ∧
    kept `sublist_of` content notes_txt ∧
    utf8_decode strict kept = Ok text ∧
    ∀ w : world Z,
      ingest_file notes_txt 100%N w
      = ingest_text (Some (filename notes_txt)) None (filename notes_txt) 100%N text w.
Proof.
  apply (plain_file_text_never_raises notes_txt 100%N); vm_compute; reflexivity.
Defined.

(** ** More on the chunker *)

Section chunker_more.
Implicit Types (s t cur : list N) (chunks ps : list (list N)) (size overlap : Z).

Lemma py_slice_window s i size :
  0 <= i → 0 <= size →
  py_slice s (Some i) (Some (i + size)) = take (Z.to_nat size) (drop (Z.to_nat i) s).
Proof.
  intros Hi Hs. unfold py_slice, slice_index, len. cbn [from_option].
  assert ((i <? 0) = false) as -> by lia.
  assert ((i + size <? 0) = false) as -> by lia.
  destruct (decide (i <= Z.of_nat (length s))) as [Hle|Hgt].
  - rewrite (Z.min_l i) by lia.
    destruct (decide (i + size <= Z.of_nat (length s))).
    + rewrite Z.min_l by lia. f_equal. lia.
    + rewrite Z.min_r by lia. rewrite !take_ge; [done|rewrite length_drop; lia..].
  - rewrite !Z.min_r by lia. rewrite !drop_ge by lia. by rewrite !take_nil.
Qed.

(** The starts of the windows lie inside the unit. *)
Lemma window_start_in_range (n step : Z) (k : nat) :
  0 < step → (k < Z.to_nat ((n + step - 1) / step))%nat → Z.of_nat k * step < n.
Proof.
  intros Hs Hk.
  pose proof (Z.mul_div_le (n + step - 1) step Hs).
  assert (0 <= (n + step - 1) / step ∨ (n + step - 1) / step < 0) as [?|?] by lia; nia.
Qed.

Lemma windows_nonempty s size overlap :
  0 <= overlap < size →
  ∃ ws, windows s size overlap = Ok ws ∧ Forall (λ w, w ≠ []) ws.
Proof.
  intros Hso. unfold windows, py_range0.
  assert ((size - overlap =? 0) = false) as -> by lia.
  assert ((size - overlap <? 0) = false) as -> by lia.
  eexists. split; [done|]. apply Forall_fmap, Forall_fmap, Forall_forall.
  intros k Hk%elem_of_seq. cbn.
  assert (Z.of_nat k * (size - overlap) < len s) as Hlt
    by (apply window_start_in_range; lia).
  rewrite py_slice_window by nia. unfold len in Hlt.
  intros E%(f_equal length). rewrite length_take, length_drop in E. cbn in E. nia.
Qed.

Lemma Forall_flush_nonempty chunks cur :
  Forall (λ c, c ≠ []) chunks → Forall (λ c, c ≠ []) (flush chunks cur).
Proof.
  intros Hc. destruct cur as [|c cur]; [done|]. cbn [flush].
  apply Forall_app. split; [done|]. by constructor.
Qed.

Lemma split_loop_nonempty size overlap sentences chunks cur :
  0 <= overlap < size → Forall (λ c, c ≠ []) chunks →
  ∃ chunks' cur',
    split_loop size overlap sentences chunks cur = Ok (chunks', cur') ∧
    Forall (λ c, c ≠ []) chunks'.
Proof.
  intros Hso. revert chunks cur.
  induction sentences as [|s rest IH]; intros chunks cur Hc; [by eauto|].
  cbn [split_loop]. destruct (len cur + len s <=? size); [by apply IH|].
  pose proof (Forall_flush_nonempty _ cur Hc) as Hf.
  destruct (len s >? size); [|by apply IH].
  destruct (windows_nonempty s size overlap Hso) as (ws & -> & Hws).
  apply IH. by apply Forall_app.
Qed.

(** With [overlap = 0] the windows of a unit are consecutive pieces of
    it. *)
Lemma concat_consecutive_takes s (size n : nat) :
  concat ((λ k : nat, take size (drop (k * size) s)) <$> seq 0 n) = take (n * size) s.
Proof.
  induction n as [|n IH]; [done|].
  rewrite seq_S, fmap_app, concat_app, IH. cbn [fmap list_fmap concat plus].
  rewrite app_nil_r, take_take_drop. f_equal. lia.
Qed.

Lemma windows_no_overlap_concat s size :
  0 < size → ∃ ws, windows s size 0 = Ok ws ∧ concat ws = s.
Proof.
  intros Hs. unfold windows, py_range0. rewrite Z.sub_0_r.
  assert ((size =? 0) = false) as -> by lia.
  assert ((size <? 0) = false) as -> by lia.
  eexists. split; [done|]. rewrite <- list_fmap_compose.
  set (n := Z.to_nat ((len s + size - 1) / size)).
  rewrite (list_fmap_ext _ (λ k : nat, take (Z.to_nat size) (drop (k * Z.to_nat size) s)) (seq 0 n)).
  - rewrite concat_consecutive_takes. apply take_ge. subst n. unfold len.
    pose proof (Z.mul_succ_div_gt (Z.of_nat (length s) + size - 1) size Hs).
    assert (0 <= (Z.of_nat (length s) + size - 1) / size) by (apply Z.div_pos; lia).
    nia.
  - intros i k Hk. cbn. rewrite py_slice_window by nia. do 2 f_equal. nia.
Qed.

Lemma split_loop_nonws_no_overlap size sentences chunks cur :
  0 < size →
  ∃ chunks' cur',
    split_loop size 0 sentences chunks cur = Ok (chunks', cur') ∧
    nonws (concat chunks') ++ nonws cur'
    = nonws (concat chunks) ++ nonws cur ++ nonws (concat sentences).
Proof.
  intros Hs. revert chunks cur.
  induction sentences as [|s rest IH]; intros chunks cur.
  - exists chunks, cur. cbn. by rewrite app_nil_r.
  - cbn [split_loop concat]. destruct (len cur + len s <=? size).
    + destruct (IH chunks (strip (cur ++ U " " ++ s))) as (c' & k' & -> & E).
      exists c', k'. split; [done|]. rewrite E, nonws_strip, !nonws_app.
      by rewrite <- !app_assoc.
    + destruct (len s >? size).
      * destruct (windows_no_overlap_concat s size Hs) as (ws & -> & Ew).
        destruct (IH (flush chunks cur ++ ws) []) as (c' & k' & -> & E).
        exists c', k'. split; [done|].
        rewrite E, concat_app, !nonws_app, nonws_flush, Ew. cbn.
        by rewrite <- !app_assoc.
      * destruct (IH (flush chunks cur) s) as (c' & k' & -> & E).
        exists c', k'. split; [done|]. rewrite E, nonws_flush, !nonws_app.
        by rewrite <- !app_assoc.
Qed.

(** A unit longer than [size] makes the loop raise when the stride
    [size - overlap] is zero. *)
Lemma split_loop_zero_stride size sentences chunks cur :
  Exists (λ s, size < len s) sentences →
  split_loop size size sentences chunks cur = Raise ValueError.
Proof.
  intros Hex. revert chunks cur.
  induction Hex as [s rest Hs|s rest _ IH]; intros chunks cur.
  - cbn [split_loop]. cbn beta in Hs.
    assert ((len cur + len s <=? size) = false) as ->
      by (unfold len in *; apply Z.leb_gt; lia).
    assert ((len s >? size) = true) as -> by (apply Z.gtb_lt; lia).
    unfold windows, py_range0. by rewrite Z.sub_diag.
  - cbn [split_loop]. destruct (len cur + len s <=? size); [apply IH|].
    destruct (len s >? size); [|apply IH].
    unfold windows, py_range0. by rewrite Z.sub_diag.
Qed.

Lemma lstrip_suffix s : lstrip s `suffix_of` s.
Proof.
  induction s as [|c s IH]; [done|]. cbn [lstrip].
  destruct (is_space c); [by apply suffix_cons_r|done].
Qed.

Lemma lstrip_id s : head (is_space <$> s) ≠ Some true → lstrip s = s.
Proof. destruct s as [|c s]; [done|]. cbn. by destruct (is_space c). Qed.

Lemma lstrip_head s : head (is_space <$> lstrip s) ≠ Some true.
Proof.
  induction s as [|c s IH]; [done|]. cbn [lstrip].
  destruct (is_space c) eqn:E; [done|]. cbn. by rewrite E.
Qed.

Lemma rstrip_prefix s : rstrip s `prefix_of` s.
Proof.
  unfold rstrip. destruct (lstrip_suffix (reverse s)) as [k Ek].
  exists (reverse k). apply (inj reverse).
  by rewrite reverse_app, !reverse_involutive.
Qed.

Lemma strip_head s : head (is_space <$> strip s) ≠ Some true.
Proof.
  unfold strip. pose proof (lstrip_head s) as Hh.
  destruct (rstrip_prefix (lstrip s)) as [k Ek].
  destruct (rstrip (lstrip s)) as [|c r]; [done|].
  rewrite Ek in Hh. exact Hh.
Qed.

Lemma strip_strip s : strip (strip s) = strip s.
Proof.
  unfold strip at 1. rewrite (lstrip_id (strip s)) by apply strip_head.
  unfold strip, rstrip. rewrite reverse_involutive.
  by rewrite (lstrip_id (lstrip _)) by apply lstrip_head.
Qed.

Lemma strip_after_space s : strip (U " " ++ s) = strip s.
Proof. done. Qed.
End chunker_more.

(** X1: with [0 <= overlap < size], [split_text] returns without raising
    and every chunk has at most [size + 1] characters. *)
Theorem split_text_chunks_within_size_plus_one (text : list N) (size overlap : Z) :
  0 <= overlap < size →
  ∃ chunks, split_text text size overlap = Ok chunks ∧
            Forall (λ c, len c <= size + 1) chunks.
Proof. apply split_text_bound. Qed.

Lemma split_text_chunks_within_size_plus_one_witness :
  ∃ chunks, split_text (U "Hello world. Second sentence.  Third one!") 30 5 = Ok chunks ∧
            Forall (λ c, len c <= 30 + 1) chunks.
Proof.
  apply (split_text_chunks_within_size_plus_one
           (U "Hello world. Second sentence.  Third one!") 30 5). lia.
Defined.

(** X2: with [0 <= overlap < size], [split_text] returns without raising
    and none of its chunks is the empty string. *)
Theorem split_text_chunks_nonempty (text : list N) (size overlap : Z) :
  0 <= overlap < size →
  ∃ chunks, split_text text size overlap = Ok chunks ∧
            Forall (λ c, c ≠ []) chunks.
Proof.
  intros Hso. unfold split_text. destruct text as [|c text]; [by eauto|].
  destruct (split_loop_nonempty size overlap (re_split (strip (c :: text))) [] [] Hso)
    as (chunks & cur & -> & Hc); [done|].
  eexists. split; [done|]. by apply Forall_flush_nonempty.
Qed.

Lemma split_text_chunks_nonempty_witness :
  ∃ chunks, split_text (U "aaaaaaaaaa bbbb. c.") 4 1 = Ok chunks ∧
            Forall (λ c, c ≠ []) chunks.
Proof. apply (split_text_chunks_nonempty (U "aaaaaaaaaa bbbb. c.") 4 1). lia. Defined.

(** X3: with [overlap = 0] and a positive [size] nothing but white space
    is lost from any text, over-long units included: the concatenated
    chunks have the characters of the text that are not white space, in
    order. *)
Theorem split_text_no_overlap_lossless (text : list N) (size : Z) :
  0 < size →
  ∃ chunks, split_text text size 0 = Ok chunks ∧
            nonws (concat chunks) = nonws text.
Proof.
  intros Hs. unfold split_text. destruct text as [|c text]; [by eauto|].
  destruct (split_loop_nonws_no_overlap size (re_split (strip (c :: text))) [] [] Hs)
    as (chunks & cur & -> & E).
  eexists. split; [done|]. rewrite nonws_flush, E. cbn [concat nonws List.filter app].
  unfold re_split. by rewrite nonws_re_split_go, nonws_strip.
Qed.

Lemma split_text_no_overlap_lossless_witness :
  ∃ chunks, split_text (U "aaaaaaaaaa bbbb. c.") 4 0 = Ok chunks ∧
            nonws (concat chunks) = nonws (U "aaaaaaaaaa bbbb. c.").
Proof. apply (split_text_no_overlap_lossless (U "aaaaaaaaaa bbbb. c.") 4). lia. Defined.

(** X4: with [overlap = size] the stride of the windows is zero, and a
    text with a sentence-like unit longer than [size] makes [split_text]
    raise [ValueError]. *)
Theorem split_text_zero_stride_raises (text : list N) (size : Z) :
  text ≠ [] →
  Exists (λ s, size < len s) (re_split (strip text)) →
  split_text text size size = Raise ValueError.
Proof.
  intros Ht Hex. unfold split_text. destruct text as [|c text]; [done|].
  by rewrite split_loop_zero_stride.
Qed.

Lemma split_text_zero_stride_raises_witness :
  split_text (U "A long unit. ok.") 5 5 = Raise ValueError.
Proof.
  apply (split_text_zero_stride_raises (U "A long unit. ok.") 5); [discriminate|].
  apply Exists_cons_hd. vm_compute. reflexivity.
Defined.

(** X5: a text that is one sentence-like unit of at most [size]
    characters once stripped comes back as that one chunk, stripped of
    surrounding white space; a text of white space only gives no chunk. *)
Theorem split_text_single_unit (text : list N) (size overlap : Z) :
  text ≠ [] →
  re_split (strip text) = [strip text] →
  len (strip text) <= size →
  split_text text size overlap
  = Ok (match strip text with [] => [] | _ => [strip text] end).
Proof.
  intros Ht Hone Hle. unfold split_text. destruct text as [|c text]; [done|].
  rewrite Hone. cbn [split_loop].
  assert ((len (@nil N) + len (strip (c :: text)) <=? size) = true) as ->
    by (apply Z.leb_le; unfold len in *; cbn [length]; lia).
  cbn [app]. rewrite strip_after_space, strip_strip.
  by destruct (strip (c :: text)).
Qed.

Lemma split_text_single_unit_witness :
  split_text (U "  Hello world.  ") 800 150 = Ok [U "Hello world."] ∧
  split_text (U "   ") 800 150 = Ok [].
Proof.
  split.
  - apply (split_text_single_unit (U "  Hello world.  ") 800 150);
      [discriminate|vm_compute; reflexivity|vm_compute; discriminate].
  - apply (split_text_single_unit (U "   ") 800 150);
      [discriminate|vm_compute; reflexivity|vm_compute; discriminate].
Defined.

(** ** More on the vector store *)

Section store_more.
Context {scalar : Type} `{Float32 scalar}.
Implicit Types (w : world scalar) (h vs : list (meta scalar))
  (md metas : list loc) (raw : list (scalar * Z)).

Lemma save_run w :
  save w
  = (Ok (),
     {| store := store w; objects := objects w;
        disk := {| faiss_index := from_option Some (faiss_index (disk w))
                                    (index (store w));
                   faiss_meta := Some (deref (objects w) <$> metadata (store w)) |} |}).
Proof.
  unfold save, bind, dump. cbn [get_store].
  by destruct (index (store w)).
Qed.

(** X6: [save] followed by [load] into a new store gives back the
    records, value for value and in order.  The index comes back too when
    the saved store had one; when it had none, [save] writes no index file
    and [load] takes whatever index file was on disk before. *)
Theorem save_load_round_trip w :
  let fresh := {| store := new_store; objects := []; disk := disk (save w).2 |} in
  let w' := (load fresh).2 in
  deref (objects w') <$> metadata (store w')
  = deref (objects w) <$> metadata (store w) ∧
  index (store w') = from_option Some (faiss_index (disk w)) (index (store w)) ∧
  (∀ ix, index (store w) = Some ix → dim (store w') = Some (d ix)).
Proof.
  cbn zeta. rewrite save_run. cbn [snd disk]. rewrite load_run.
  cbn [snd store objects disk faiss_index faiss_meta metadata index dim
       from_option default app length].
  split; [apply (deref_seq_new [])|]. split.
  - by destruct (index (store w)), (faiss_index (disk w)).
  - by intros ix ->.
Qed.

Lemma Forall_insert_desc (P : scalar * Z → Prop) x (l : list (scalar * Z)) :
  P x → Forall P l → Forall P (insert_desc x l).
Proof.
  intros Hx. induction 1 as [|y l Hy Hl IH]; cbn [insert_desc].
  - by constructor.
  - destruct (ranks_before x y); repeat constructor; done.
Qed.

Lemma Forall_sort_desc (P : scalar * Z → Prop) (l : list (scalar * Z)) :
  Forall P l → Forall P (sort_desc l).
Proof.
  unfold sort_desc.
  enough (∀ acc, Forall P acc → Forall P l →
                 Forall P (foldl (λ a x, insert_desc x a) acc l)) as Hg
    by (apply Hg; constructor).
  induction l as [|x l IH]; intros acc Ha Hl; [done|].
  apply Forall_cons in Hl as [Hx Hl]. cbn [foldl].
  apply IH; [|done]. by apply Forall_insert_desc.
Qed.

(** Every id the flat search ranks is the position of a stored vector. *)
Lemma flat_search_ids_in_range (ix : IndexFlatIP scalar) (q : list scalar) :
  Forall (λ r : scalar * Z, 0 <= r.2 < ntotal ix)
    (sort_desc (List.filter (λ r, score_ltb lowest r.1)
                  (imap (λ i v, (inner_product q v, Z.of_nat i)) (xb ix)))).
Proof.
  apply Forall_sort_desc, Forall_forall.
  intros r [Hin _]%list_elem_of_In%filter_In. apply list_elem_of_In in Hin.
  apply list_elem_of_lookup in Hin as [i Hr].
  rewrite list_lookup_imap in Hr.
  destruct (xb ix !! i) as [v|] eqn:Ev; [|done]. injection Hr as <-.
  apply lookup_lt_Some in Ev. cbn. unfold ntotal, len. lia.
Qed.

(** The vectors that enter the result heap are counted on the stored
    vectors themselves. *)
Lemma length_filter_scored (q : list scalar) (g : nat → list scalar → scalar * Z)
    (l : list (list scalar)) :
  (∀ i v, (g i v).1 = inner_product q v) →
  length (List.filter (λ r, score_ltb lowest r.1) (imap g l))
  = length (List.filter (λ v, score_ltb lowest (inner_product q v)) l).
Proof.
  revert g. induction l as [|v l IH]; intros g Hg; [done|].
  cbn [imap List.filter]. rewrite Hg.
  destruct (score_ltb lowest (inner_product q v)); cbn [length];
    by rewrite (IH (g ∘ S)) by (intros; apply Hg).
Qed.

Lemma omap_entry_in_range md raw :
  Forall (λ r : scalar * Z, 0 <= r.2 < len md) raw →
  length (omap (λ r : scalar * Z, entry md r.2) raw) = length raw.
Proof.
  induction 1 as [|r raw Hr _ IH]; [done|]. cbn -[entry].
  destruct (entry md r.2) as [l|] eqn:E; cbn -[entry]; [by rewrite IH|].
  apply entry_None in E. lia.
Qed.

Lemma omap_entry_filler md n :
  omap (λ r : scalar * Z, entry md r.2) (replicate n (lowest, -1)) = [].
Proof. induction n as [|n IH]; [done|]. cbn. exact IH. Qed.

(** X8: on a store with as many records as vectors, a query of the
    index's width with [k > 0] whose result arrays can be allocated gets
    exactly [min(k, c)] results, [c] being the number of stored vectors
    whose inner product with the normalised query is above the lowest
    score: all of them, unless a score is not a number or is that low. *)
Theorem search_result_count w ix (q : ndarray scalar) (q0 : list scalar)
    (qs : list (list scalar)) k :
  count_invariant (store w) → index (store w) = Some ix →
  0 < k → ncols q = d ix → rows q = q0 :: qs →
  search_shortage (len (rows q)) k = None →
  ∃ out w',
    search q k w = (Ok out, w') ∧
    len out
    = Z.min k (len (List.filter
                      (λ v, score_ltb lowest (inner_product (l2_normalize q0) v))
                      (xb ix))).
Proof.
  intros Hinv Hi Hk Hd Hq Hs.
  destruct (decide (ntotal ix = 0)) as [Hn|Hn].
  { exists [], w. rewrite search_empty; [|unfold vector_count; by rewrite Hi].
    split; [done|]. unfold ntotal, len in Hn.
    destruct (xb ix); [|cbn in Hn; lia]. unfold len. cbn. lia. }
  rewrite (search_nonempty _ _ _ ix) by done.
  unfold index_search. cbn [ncols rows].
  rewrite bool_decide_eq_true_2 by done.
  apply Z.ltb_lt in Hk as Hk'. rewrite Hk'.
  replace (len (l2_normalize <$> rows q)) with (len (rows q))
    by (unfold len; by rewrite length_fmap).
  rewrite Hs, Hq, !fmap_cons, py_getitem_first.
  destruct (search_loop_frame (flat_search ix k (l2_normalize q0)) [] w)
    as (new & -> & Hlen).
  eexists _, _. split; [done|]. cbn [app]. unfold len. rewrite length_seq, Hlen.
  unfold flat_search. rewrite omap_app, omap_entry_filler, app_nil_r.
  rewrite omap_entry_in_range.
  - rewrite length_take, length_sort_desc.
    rewrite (length_filter_scored (l2_normalize q0)) by done. lia.
  - apply Forall_take. unfold count_invariant, vector_count in Hinv.
    rewrite Hi in Hinv. cbn in Hinv. rewrite <- Hinv.
    apply flat_search_ids_in_range.
Qed.

Lemma expected_hits_filler md h n :
  expected_hits md h (replicate n (lowest, -1)) = [].
Proof. induction n as [|n IH]; [done|]. cbn [replicate]. by rewrite expected_hits_cons. Qed.

(** On a well-formed world the results of [search] are the expected
    results for the raw row faiss returns. *)
Lemma search_hits (q : ndarray scalar) k w out w' :
  well_formed w → search q k w = (Ok out, w') →
  ∃ raw,
    out = seq (length (objects w))
            (length (expected_hits (metadata (store w)) (objects w) raw)) ∧
    w' = with_objects w
           (objects w ++ expected_hits (metadata (store w)) (objects w) raw).
Proof.
  intros Hwf Es.
  assert (∃ raw, search q k w = search_loop raw [] w) as [raw Er].
  { destruct (index (store w)) as [ix|] eqn:Hi.
    2:{ exists []. rewrite search_empty; [done|]. unfold vector_count. by rewrite Hi. }
    destruct (decide (ntotal ix = 0)) as [Hn|Hn].
    { exists []. rewrite search_empty; [done|]. unfold vector_count. by rewrite Hi. }
    rewrite (search_nonempty _ _ _ ix) in Es |- * by done.
    destruct (index_search _ _ _) as [DI|e]; [|done].
    destruct (py_getitem DI 0) as [raw|e]; [|done]. by exists raw. }
  exists raw. rewrite Er, (search_loop_hits raw [] w Hwf) in Es. cbn [app] in Es.
  by injection Es as <- <-.
Qed.

(** X7: after one vector [v] with its record is added to a new store, a
    query of the same width whose score with [v] is above the lowest score
    gets exactly one result, for every [k > 0] for which the result arrays
    can be allocated: a new copy of that record whose score is the inner
    product of the normalised query and the normalised [v]. *)
Theorem add_then_search_finds_it w (n : nat) (v q0 : list scalar) (l : loc) k :
  store w = new_store → (l < length (objects w))%nat → 0 < k →
  search_shortage 1 k = None →
  score_ltb lowest (inner_product (l2_normalize q0) (l2_normalize v)) = true →
  let w1 := (add {| ncols := n; rows := [v] |} [l] w).2 in
  search {| ncols := n; rows := [q0] |} k w1
  = (Ok [length (objects w)],
     with_objects w1
       (objects w
        ++ [set_score (deref (objects w) l)
              (inner_product (l2_normalize q0) (l2_normalize v))])).
Proof.
  intros Hs Hl Hk Hfit Hscore. cbn zeta.
  rewrite add_fresh by (by rewrite ?Hs). rewrite Hs. cbn [snd metadata new_store app rows ncols].
  set (w1 := with_store w _).
  assert (well_formed w1) as Hwf by (by repeat constructor).
  rewrite (search_nonempty _ _ _ {| d := n; xb := [l2_normalize v] |}) by done.
  unfold index_search. cbn [ncols rows d]. rewrite bool_decide_eq_true_2 by done.
  apply Z.ltb_lt in Hk as Hk'. rewrite Hk'.
  change (len (l2_normalize <$> [q0])) with 1. rewrite Hfit.
  rewrite !fmap_cons, py_getitem_first.
  rewrite (search_loop_hits _ [] w1 Hwf). cbn [app].
  unfold flat_search. cbn [xb imap List.filter fst]. rewrite Hscore.
  change (sort_desc [?x]) with [x].
  destruct (Z.to_nat k) as [|k'] eqn:Ek; [lia|]. cbn [take app].
  rewrite take_nil. cbn [app]. rewrite expected_hits_cons.
  by rewrite expected_hits_filler.
Qed.
End store_more.

(** ** More on the handlers *)

Section handlers_more.
Context {scalar : Type} `{Float32 scalar} `{Collaborators scalar}.
Implicit Types (w : world scalar) (h vs : list (meta scalar))
  (cs : list (list N * N * nat)).

Lemma expected_hits_from_store (md : list loc) h (raw : list (scalar * Z)) :
  Forall (λ a, ∃ l sc, l ∈ md ∧ a = set_score (deref h l) sc)
    (expected_hits md h raw).
Proof.
  induction raw as [|[sc idx] raw IH]; [constructor|].
  rewrite expected_hits_cons. destruct (entry md idx) as [l|] eqn:E; [|done].
  constructor; [|done]. exists l, sc. split; [|done].
  unfold entry in E. destruct (idx <? 0); [done|].
  by eapply list_elem_of_lookup_2.
Qed.

(** X9: every answer of [query_endpoint] is a stored record with the
    [score] key set: the copy of a dict the store refers to, not the dict
    itself, which keeps its value. *)
Theorem query_answers_are_scored_copies (req : QueryRequest) w answers w' :
  well_formed w → query_endpoint req w = (Ok answers, w') →
  Forall (λ a, ∃ l sc, l ∈ metadata (store w) ∧
                       a = set_score (deref (objects w) l) sc ∧
                       deref (objects w') l = deref (objects w) l) answers.
Proof.
  intros Hwf. unfold query_endpoint. destruct (query req) as [|c q]; [done|].
  unfold bind. destruct (search _ _ w) as [[out|e] w1] eqn:Es; [|done].
  destruct (search_hits _ _ _ _ _ Hwf Es) as (raw & -> & ->).
  unfold dump. cbn [with_objects objects]. intros [= <- <-].
  rewrite deref_seq_new. cbn [objects].
  eapply Forall_impl; [apply expected_hits_from_store|].
  intros a (l & sc & Hl & ->). exists l, sc. split; [done|]. split; [done|].
  apply deref_app_old. by eapply (proj1 (Forall_forall _ _) Hwf).
Qed.

Lemma ingested_well_formed cs w w' :
  ingested cs w w' → well_formed w → well_formed w'.
Proof.
  intros [[ext E] (new & M1 & F1 & _)] Hwf. unfold well_formed in *.
  rewrite M1. apply Forall_app. split; [|done].
  eapply Forall_impl; [exact Hwf|]. intros l Hl. cbn in Hl.
  rewrite E, length_app. lia.
Qed.

(** X10: the references of the store always designate allocated dicts:
    the world at start is well formed, and [load], [add] of allocated
    dicts, [save], both ingestion handlers, [query_endpoint] and [get_meta]
    keep it so, whether they return or raise. *)
Theorem world_stays_well_formed w :
  well_formed w →
  well_formed (load w).2 ∧
  well_formed (save w).2 ∧
  (∀ embs metas, Forall (λ l, l < length (objects w))%nat metas →
                 well_formed (add embs metas w).2) ∧
  (∀ files, well_formed (ingest files w).2) ∧
  (∀ urls, well_formed (ingest_urls urls w).2) ∧
  (∀ req, well_formed (query_endpoint req w).2) ∧
  (∀ n, well_formed (get_meta n w).2).
Proof.
  intros Hwf. repeat split.
  - rewrite load_run. unfold well_formed in *. cbn [snd store objects metadata].
    destruct (faiss_meta (disk w)) as [vs|]; cbn [from_option default id].
    + apply Forall_forall. intros l Hl%elem_of_seq. rewrite length_app. lia.
    + by rewrite app_nil_r.
  - rewrite save_run. exact Hwf.
  - intros embs metas Hm.
    destruct (add_cases embs metas w) as (r & s & -> & [->|(_ & Hs & _)]);
      unfold well_formed in *; cbn [snd with_store store objects]; [done|].
    rewrite Hs. by apply Forall_app.
  - intros files. destruct (ingest_loop_ingested files 0 w) as (cs & Hi & _).
    eapply ingested_well_formed; [|exact Hwf]. by apply ingested_then_save.
  - intros urls. destruct (ingest_urls_loop_ingested urls 0 w) as (cs & Hi & _).
    eapply ingested_well_formed; [|exact Hwf]. by apply ingested_then_save.
  - intros req. unfold query_endpoint. destruct (query req) as [|c q]; [done|].
    destruct (search_frame (encode [c :: q]) (top_k req) w) as (r & new & Es & _).
    unfold bind. rewrite Es.
    destruct r; cbn [snd dump]; by apply well_formed_alloc.
  - intros n. exact Hwf.
Qed.

(** [GET /meta] with [n <= 0]: the slice [metadata[-n:]] starts at
    position [-n]. *)
Lemma get_meta_nonpositive_run n w :
  n <= 0 →
  get_meta n w
  = (Ok {| total := len (metadata (store w));
           items := deref (objects w)
                    <$> reverse (drop (Z.to_nat (- n)) (metadata (store w))) |}, w).
Proof.
  intros Hn. unfold get_meta, bind, dump, ret. cbn [get_store].
  do 4 f_equal. unfold py_slice, slice_index, len. cbn [from_option].
  assert ((- n <? 0) = false) as -> by lia.
  set (m := length (metadata (store w))). f_equal.
  destruct (decide (- n <= Z.of_nat m)).
  - rewrite Z.min_l by lia. apply take_ge. rewrite length_drop. subst m. lia.
  - rewrite Z.min_r by lia. rewrite !drop_ge by (subst m; lia). by rewrite take_nil.
Qed.
End handlers_more.

(** ** Ingestion: counts and the disk *)

Section ingestion_counts.
Context {scalar : Type} `{Float32 scalar} `{Collaborators scalar}.
Implicit Types (w : world scalar) (h vs : list (meta scalar)).

(** The three ways [add] can end. *)
Lemma add_outcomes (embs : ndarray scalar) (metas : list loc) w :
  (rows embs = [] ∧ add embs metas w = (Ok (), w)) ∨
  (add embs metas w = (Raise AssertionError, w)) ∨
  (∃ s, add embs metas w = (Ok (), with_store w s) ∧
        metadata s = metadata (store w) ++ metas ∧
        vector_count s = vector_count (store w) + len (rows embs)).
Proof.
  destruct (decide (rows embs = [])) as [E|E].
  { left. split; [done|]. by apply add_no_rows. }
  right. destruct (index (store w)) as [ix|] eqn:Hi.
  - destruct (decide (ncols embs = d ix)) as [Hd|Hd].
    + right. eexists. rewrite (add_match _ _ _ ix) by done. split; [done|].
      split; [done|]. unfold vector_count, ntotal, len. rewrite Hi. cbn.
      rewrite length_app, length_fmap. lia.
    + left. by apply (add_mismatch _ _ _ ix).
  - right. eexists. rewrite add_fresh by done. split; [done|]. split; [done|].
    unfold vector_count, ntotal, len. rewrite Hi. cbn. rewrite length_fmap. lia.
Qed.

(** *** The disk is written by [save] only *)

Lemma embed_and_add_disk (t u : option (list N)) p ts (parts : list (list N)) w :
  disk (embed_and_add t u p ts parts w).2 = disk w.
Proof.
  unfold embed_and_add. unfold bind at 1. rewrite alloc_all_run. unfold bind.
  destruct (add_cases (encode parts)
              (seq (length (objects w))
                 (length (build_metas (scalar:=scalar) t u p ts parts)))
              (with_objects w (objects w ++ build_metas t u p ts parts)))
    as (r & s & -> & _).
  by destruct r.
Qed.

Lemma ingest_text_disk (t u : option (list N)) p ts (text : list N) w :
  disk (ingest_text t u p ts text w).2 = disk w.
Proof.
  unfold ingest_text, bind, lift.
  destruct (split_text text CHUNK_SIZE CHUNK_OVERLAP); [|done].
  apply embed_and_add_disk.
Qed.

Lemma ingest_file_disk (f : UploadFile) ts w : disk (ingest_file f ts w).2 = disk w.
Proof.
  unfold ingest_file.
  destruct (endswith (lower (filename f)) (U ".pdf")).
  { unfold bind at 1, lift at 1. destruct (pdf_pages (content f)); [|done].
    apply ingest_text_disk. }
  destruct (endswith (lower (filename f)) (U ".csv")).
  { unfold bind at 1, lift at 1. destruct (read_csv (content f)); [|done].
    apply embed_and_add_disk. }
  unfold bind at 1, lift at 1. destruct (utf8_decode ignore (content f)); [|done].
  apply ingest_text_disk.
Qed.

Lemma ingest_url_disk (u : list N) ts w : disk (ingest_url u ts w).2 = disk w.
Proof.
  unfold ingest_url.
  destruct (match fetch_url u with Some ((_ :: _) as h) => extract h | _ => None end)
    as [[|c text]|]; try done. apply ingest_text_disk.
Qed.

Lemma ingest_loop_disk (files : list (UploadFile * N)) acc w :
  disk (ingest_loop files acc w).2 = disk w.
Proof.
  revert acc w. induction files as [|[f ts] files IH]; intros acc w; [done|].
  cbn [ingest_loop]. unfold bind. pose proof (ingest_file_disk f ts w) as Hd.
  destruct (ingest_file f ts w) as [[k|e] w1]; cbn [snd] in *; [|done].
  by rewrite IH.
Qed.

Lemma ingest_urls_loop_disk (urls : list (list N * N)) acc w :
  disk (ingest_urls_loop urls acc w).2 = disk w.
Proof.
  revert acc w. induction urls as [|[u ts] urls IH]; intros acc w; [done|].
  cbn [ingest_urls_loop]. unfold bind. pose proof (ingest_url_disk u ts w) as Hd.
  destruct (ingest_url u ts w) as [[k|e] w1]; cbn [snd] in *; [|done].
  by rewrite IH.
Qed.

Lemma bind_save_run (m : M scalar Z) w :
  (a <- m ;; save ;; ret a) w
  = match m w with
    | (Ok a, w1) => (Ok a, (save w1).2)
    | (Raise e, w1) => (Raise e, w1)
    end.
Proof.
  unfold bind. destruct (m w) as [[a|e] w1]; [|done]. by rewrite save_run.
Qed.

(** A loop followed by [save]: when the whole returns, the disk holds
    the records of the store and its index. *)
Lemma batch_then_save (m : M scalar Z) w :
  disk (m w).2 = disk w →
  let r := (a <- m ;; save ;; ret a) w in
  ∀ n, r.1 = Ok n →
       faiss_meta (disk r.2) = Some (deref (objects r.2) <$> metadata (store r.2)) ∧
       faiss_index (disk r.2)
       = from_option Some (faiss_index (disk w)) (index (store r.2)).
Proof.
  intros Hd. cbn zeta. rewrite bind_save_run.
  destruct (m w) as [[a|e] w1]; cbn [snd] in Hd.
  - rewrite save_run. cbn [fst snd store objects disk faiss_meta faiss_index].
    by rewrite Hd.
  - cbn [fst snd]. by intros n [=].
Qed.

(** X13: the items of a batch never write the disk: when the loop over
    the items stops, at its end or at an item that raises, the disk is as
    it was before the batch.  A batch that returns has saved: the metadata
    file holds the records of the store, value for value, and the index
    file holds the store's index (the file is left as it was when the
    store has no index). *)
Theorem ingest_saves_only_at_the_end w (files : list (UploadFile * N))
    (urls : list (list N * N)) :
  disk (ingest_loop files 0 w).2 = disk w ∧
  disk (ingest_urls_loop urls 0 w).2 = disk w ∧
  (∀ n, (ingest files w).1 = Ok n →
        let w' := (ingest files w).2 in
        faiss_meta (disk w') = Some (deref (objects w') <$> metadata (store w')) ∧
        faiss_index (disk w')
        = from_option Some (faiss_index (disk w)) (index (store w'))) ∧
  (∀ n, (ingest_urls urls w).1 = Ok n →
        let w' := (ingest_urls urls w).2 in
        faiss_meta (disk w') = Some (deref (objects w') <$> metadata (store w')) ∧
        faiss_index (disk w')
        = from_option Some (faiss_index (disk w)) (index (store w'))).
Proof.
  split; [apply ingest_loop_disk|]. split; [apply ingest_urls_loop_disk|]. split.
  - apply (batch_then_save (ingest_loop files 0) w (ingest_loop_disk files 0 w)).
  - apply (batch_then_save (ingest_urls_loop urls 0) w (ingest_urls_loop_disk urls 0 w)).
Qed.

(** *** Counts, when the embedder returns one row per text *)

Hypothesis encode_one_row_per_text :
  ∀ parts : list (list N), length (rows (encode parts)) = length parts.

Lemma embed_and_add_run (t u : option (list N)) p ts (parts : list (list N)) w :
  embed_and_add t u p ts parts w
  = match add (encode parts)
            (seq (length (objects w))
               (length (build_metas (scalar:=scalar) t u p ts parts)))
            (with_objects w (objects w ++ build_metas t u p ts parts)) with
    | (Ok _, w2) => (Ok (len parts), w2)
    | (Raise e, w2) => (Raise e, w2)
    end.
Proof.
  unfold embed_and_add. unfold bind at 1. rewrite alloc_all_run. unfold bind.
  by destruct (add _ _ _) as [[[]|e] w2].
Qed.

Lemma embed_and_add_counts (t u : option (list N)) p ts (parts : list (list N)) w :
  let r := embed_and_add t u p ts parts w in
  (count_invariant (store w) → count_invariant (store r.2)) ∧
  (∀ n, r.1 = Ok n →
        0 <= n ∧ len (metadata (store r.2)) = len (metadata (store w)) + n).
Proof.
  cbn zeta. rewrite embed_and_add_run.
  set (vs := build_metas t u p ts parts).
  assert (length vs = length parts) as Hvs by apply length_imap.
  set (w1 := with_objects w (objects w ++ vs)).
  destruct (add_outcomes (encode parts) (seq (length (objects w)) (length vs)) w1)
    as [[Er ->]|[->|(s & -> & Hm & Hv)]]; cbn [fst snd].
  - split; [done|]. intros n [= <-].
    pose proof (encode_one_row_per_text parts) as He. rewrite Er in He.
    unfold len. cbn in *. lia.
  - split; [done|]. by intros n [=].
  - subst w1. unfold with_store, with_objects in *. cbn [store objects] in *. split.
    + unfold count_invariant. intros Hinv. rewrite Hv, Hm, Hinv. unfold len.
      rewrite length_app, length_seq, encode_one_row_per_text. lia.
    + intros n [= <-]. rewrite Hm. unfold len.
      rewrite length_app, length_seq. lia.
Qed.

Lemma ingest_text_counts (t u : option (list N)) p ts (text : list N) w :
  let r := ingest_text t u p ts text w in
  (count_invariant (store w) → count_invariant (store r.2)) ∧
  (∀ n, r.1 = Ok n →
        0 <= n ∧ len (metadata (store r.2)) = len (metadata (store w)) + n).
Proof.
  cbn zeta. unfold ingest_text, bind, lift.
  destruct (split_text text CHUNK_SIZE CHUNK_OVERLAP) as [parts|e].
  - apply embed_and_add_counts.
  - split; [done|]. by intros n [=].
Qed.

Lemma ingest_file_counts (f : UploadFile) ts w :
  let r := ingest_file f ts w in
  (count_invariant (store w) → count_invariant (store r.2)) ∧
  (∀ n, r.1 = Ok n →
        0 <= n ∧ len (metadata (store r.2)) = len (metadata (store w)) + n).
Proof.
  cbn zeta. unfold ingest_file.
  destruct (endswith (lower (filename f)) (U ".pdf")).
  { unfold bind at 1 3, lift at 1 2. destruct (pdf_pages (content f)).
    - apply ingest_text_counts.
    - split; [done|]. by intros n [=]. }
  destruct (endswith (lower (filename f)) (U ".csv")).
  { unfold bind at 1 3, lift at 1 2. destruct (read_csv (content f)).
    - apply embed_and_add_counts.
    - split; [done|]. by intros n [=]. }
  unfold bind at 1 3, lift at 1 2. destruct (utf8_decode ignore (content f)).
  - apply ingest_text_counts.
  - split; [done|]. by intros n [=].
Qed.

Lemma ingest_url_counts (u : list N) ts w :
  let r := ingest_url u ts w in
  (count_invariant (store w) → count_invariant (store r.2)) ∧
  (∀ n, r.1 = Ok n →
        0 <= n ∧ len (metadata (store r.2)) = len (metadata (store w)) + n).
Proof.
  cbn zeta. unfold ingest_url.
  destruct (match fetch_url u with Some ((_ :: _) as h) => extract h | _ => None end)
    as [[|c text]|]; try apply ingest_text_counts;
    (split; [done|]); intros n [= <-]; cbn; lia.
Qed.

Lemma ingest_loop_counts (files : list (UploadFile * N)) acc w :
  let r := ingest_loop files acc w in
  (count_invariant (store w) → count_invariant (store r.2)) ∧
  (∀ n, r.1 = Ok n →
        acc <= n ∧
        len (metadata (store r.2)) = len (metadata (store w)) + (n - acc)).
Proof.
  cbn zeta. revert acc w. induction files as [|[f ts] files IH]; intros acc w.
  { cbn. split; [done|]. intros n [= <-]. lia. }
  cbn [ingest_loop]. unfold bind.
  destruct (ingest_file_counts f ts w) as [I1 C1].
  destruct (ingest_file f ts w) as [[k|e] w1]; cbn [fst snd] in *.
  - destruct (IH (acc + k) w1) as [I2 C2]. split; [by auto|].
    intros n En. destruct (C2 n En) as [? ->]. destruct (C1 k eq_refl) as [? ->]. lia.
  - split; [done|]. by intros n [=].
Qed.

Lemma ingest_urls_loop_counts (urls : list (list N * N)) acc w :
  let r := ingest_urls_loop urls acc w in
  (count_invariant (store w) → count_invariant (store r.2)) ∧
  (∀ n, r.1 = Ok n →
        acc <= n ∧
        len (metadata (store r.2)) = len (metadata (store w)) + (n - acc)).
Proof.
  cbn zeta. revert acc w. induction urls as [|[u ts] urls IH]; intros acc w.
  { cbn. split; [done|]. intros n [= <-]. lia. }
  cbn [ingest_urls_loop]. unfold bind.
  destruct (ingest_url_counts u ts w) as [I1 C1].
  destruct (ingest_url u ts w) as [[k|e] w1]; cbn [fst snd] in *.
  - destruct (IH (acc + k) w1) as [I2 C2]. split; [by auto|].
    intros n En. destruct (C2 n En) as [? ->]. destruct (C1 k eq_refl) as [? ->]. lia.
  - split; [done|]. by intros n [=].
Qed.

Lemma batch_then_save_counts (m : M scalar Z) w :
  let r := (a <- m ;; save ;; ret a) w in
  store r.2 = store (m w).2 ∧ (∀ n, r.1 = Ok n → (m w).1 = Ok n).
Proof.
  cbn zeta. rewrite bind_save_run. destruct (m w) as [[a|e] w1]; cbn [fst snd].
  - rewrite save_run. by cbn.
  - split; [done|]. by intros n [=].
Qed.

(** X11: with an embedder that returns one row per text, both ingestion
    handlers keep [len(vectors) == len(metadata)], whether the batch
    returns or an item raises half way. *)
Theorem ingest_keeps_count_invariant w (files : list (UploadFile * N))
    (urls : list (list N * N)) :
  count_invariant (store w) →
  count_invariant (store (ingest files w).2) ∧
  count_invariant (store (ingest_urls urls w).2).
Proof.
  intros Hinv. unfold ingest, ingest_urls. split.
  - destruct (batch_then_save_counts (ingest_loop files 0) w) as [-> _].
    by apply ingest_loop_counts.
  - destruct (batch_then_save_counts (ingest_urls_loop urls 0) w) as [-> _].
    by apply ingest_urls_loop_counts.
Qed.

(** X12: with an embedder that returns one row per text, the [added]
    count a batch answers with is the number of records it appended to the
    store. *)
Theorem ingest_reports_records_added w (files : list (UploadFile * N))
    (urls : list (list N * N)) :
  (∀ n, (ingest files w).1 = Ok n → len (added_records w (ingest files w).2) = n) ∧
  (∀ n, (ingest_urls urls w).1 = Ok n →
        len (added_records w (ingest_urls urls w).2) = n).
Proof.
  unfold ingest, ingest_urls.
  split; intros n En; unfold added_records, len; rewrite length_fmap, length_drop.
  - destruct (batch_then_save_counts (ingest_loop files 0) w) as [-> Hr].
    destruct (proj2 (ingest_loop_counts files 0 w) n (Hr n En)) as [Hn Hc].
    unfold len in Hc. lia.
  - destruct (batch_then_save_counts (ingest_urls_loop urls 0) w) as [-> Hr].
    destruct (proj2 (ingest_urls_loop_counts urls 0 w) n (Hr n En)) as [Hn Hc].
    unfold len in Hc. lia.
Qed.
End ingestion_counts.

Lemma length_embedder_one_row_per_text (parts : list (list N)) :
  length (rows (encode (scalar:=Z) parts)) = length parts.
Proof. apply length_fmap. Qed.

Lemma ingest_keeps_count_invariant_witness :
  count_invariant (store (ingest [(memo_txt, 160%N)] after_notes).2) ∧
  count_invariant
    (store (ingest_urls [(U "https://a.example/q3", 170%N)] after_notes).2).
Proof.
  apply (ingest_keeps_count_invariant length_embedder_one_row_per_text after_notes
           [(memo_txt, 160%N)] [(U "https://a.example/q3", 170%N)]).
  reflexivity.
Defined.

Lemma ingest_reports_records_added_witness :
  (∀ n, (ingest [(memo_txt, 160%N)] after_notes).1 = Ok n →
        len (added_records after_notes (ingest [(memo_txt, 160%N)] after_notes).2) = n) ∧
  (∀ n, (ingest_urls [(U "https://a.example/q3", 170%N)] after_notes).1 = Ok n →
        len (added_records after_notes
               (ingest_urls [(U "https://a.example/q3", 170%N)] after_notes).2) = n).
Proof.
  apply (ingest_reports_records_added length_embedder_one_row_per_text after_notes).
Defined.

(** ** More on [GET /meta], chunk ids and the decoder *)

(** X14: for [n > 0], [GET /meta] answers with the number of records
    and the last [n] of them (all when there are fewer), newest first, and
    changes nothing. *)
Theorem get_meta_returns_last_n `{Float32 scalar} (n : Z) (w : world scalar) :
  0 < n →
  get_meta n w
  = (Ok {| total := len (metadata (store w));
           items := deref (objects w)
                    <$> reverse (drop (length (metadata (store w)) - Z.to_nat n)
                                   (metadata (store w))) |}, w) ∧
  len (reverse (drop (length (metadata (store w)) - Z.to_nat n) (metadata (store w))))
  = Z.min n (len (metadata (store w))).
Proof.
  intros Hn. split; [by apply get_meta_positive|].
  unfold len. rewrite length_reverse, length_drop. lia.
Qed.

Lemma get_meta_returns_last_n_witness :
  get_meta 1 after_memo
  = (Ok {| total := 2; items := [deref (objects after_memo) 1%nat] |}, after_memo).
Proof. apply (proj1 (get_meta_returns_last_n 1 after_memo ltac:(lia))). Defined.

(** X15: for [n <= 0], [GET /meta] leaves out the [-n] oldest records and
    answers with all the others, newest first; with [n = 0] that is every
    record. *)
Theorem get_meta_nonpositive `{Float32 scalar} (n : Z) (w : world scalar) :
  n <= 0 →
  get_meta n w
  = (Ok {| total := len (metadata (store w));
           items := deref (objects w)
                    <$> reverse (drop (Z.to_nat (- n)) (metadata (store w))) |}, w).
Proof. apply get_meta_nonpositive_run. Qed.

Lemma get_meta_nonpositive_witness :
  get_meta (-1) after_memo
  = (Ok {| total := 2; items := [deref (objects after_memo) 1%nat] |}, after_memo).
Proof. apply (get_meta_nonpositive (-1) after_memo). lia. Defined.

(** X17: a chunk id [f"{prefix}_{ts}_{i}"] determines the prefix, the
    timestamp and the index it was made from, whatever the prefix
    contains. *)
Theorem chunk_id_determines_its_parts (p p' : list N) (ts ts' : N) (i i' : nat) :
  chunk_id_of p ts i = chunk_id_of p' ts' i' → p = p' ∧ ts = ts' ∧ i = i'.
Proof. apply chunk_id_of_inj. Qed.

Lemma chunk_id_determines_its_parts_witness :
  U "a_1" = U "a_1" ∧ 20%N = 20%N ∧ 3%nat = 3%nat.
Proof.
  apply (chunk_id_determines_its_parts (U "a_1") (U "a_1") 20 20 3 3). reflexivity.
Defined.

(** X18: on a byte string that decodes under the [strict] handler, the
    [ignore] handler gives the same text. *)
Theorem utf8_ignore_agrees_with_strict (bs : list byte) (text : list N) :
  utf8_decode strict bs = Ok text → utf8_decode ignore bs = Ok text.
Proof.
  remember (length bs) as n eqn:Hn.
  assert (length bs <= n)%nat as Hle by lia. clear Hn.
  revert bs text Hle. induction n as [|n IH]; intros bs text Hle.
  { destruct bs; [done|cbn in Hle; lia]. }
  destruct bs as [|b1 r1]; [done|]. cbn [length] in Hle.
  assert (∀ c r t, (length r <= n)%nat →
            emit c (utf8_decode strict r) = Ok t →
            emit c (utf8_decode ignore r) = Ok t) as Hemit.
  { intros c r t Hr E. destruct (utf8_decode strict r) as [t'|] eqn:E'; [|done].
    by rewrite (IH r t'). }
  cbn [utf8_decode on_error].
  destruct (Byte.to_N b1 <? 128)%N; [apply Hemit; lia|].
  destruct (Byte.to_N b1 <? 194)%N; [done|].
  destruct (Byte.to_N b1 <? 224)%N.
  { destruct r1 as [|b2 r2]; [done|].
    destruct (is_continuation (Byte.to_N b2)); [|done].
    apply Hemit. cbn in Hle. lia. }
  destruct (Byte.to_N b1 <? 240)%N.
  { destruct r1 as [|b2 r2]; [done|].
    destruct (negb (is_continuation (Byte.to_N b2)) || _); [done|].
    destruct r2 as [|b3 r3]; [done|].
    destruct (is_continuation (Byte.to_N b3)); [|done].
    apply Hemit. cbn in Hle. lia. }
  destruct (Byte.to_N b1 <? 245)%N; [|done].
  destruct r1 as [|b2 r2]; [done|].
  destruct (negb (is_continuation (Byte.to_N b2)) || _); [done|].
  destruct r2 as [|b3 r3]; [done|].
  destruct (negb (is_continuation (Byte.to_N b3))); [done|].
  destruct r3 as [|b4 r4]; [done|].
  destruct (is_continuation (Byte.to_N b4)); [|done].
  apply Hemit. cbn in Hle. lia.
Qed.

Lemma utf8_ignore_agrees_with_strict_witness :
  utf8_decode ignore [x41; xc3; xa9; xe2; x82; xac] = Ok [65%N; 233%N; 8364%N].
Proof.
  apply (utf8_ignore_agrees_with_strict [x41; xc3; xa9; xe2; x82; xac]).
  vm_compute. reflexivity.
Defined.

(** X19: bytes below 128 decode to themselves, one code point per byte,
    under either handler. *)
Theorem utf8_decode_ascii (h : error_handler) (bs : list byte) :
  Forall (λ b, Byte.to_N b < 128)%N bs →
  utf8_decode h bs = Ok (Byte.to_N <$> bs).
Proof.
  induction 1 as [|b bs Hb _ IH]; [done|].
  cbn [utf8_decode]. apply N.ltb_lt in Hb as ->. by rewrite IH.
Qed.

Lemma utf8_decode_ascii_witness :
  utf8_decode ignore (bytes_of "Guidance was cut!")
  = Ok (Byte.to_N <$> bytes_of "Guidance was cut!").
Proof.
  apply (utf8_decode_ascii ignore (bytes_of "Guidance was cut!")).
  vm_compute. repeat constructor.
Defined.

(** ** The further properties on the example worlds *)

Lemma add_then_search_finds_it_witness :
  let w := with_objects (initial no_files) (objects after_notes) in
  let w1 := (add {| ncols := 2; rows := [[3; 4]] |} [0%nat] w).2 in
  search {| ncols := 2; rows := [[1; 2]] |} 5 w1
  = (Ok [length (objects w)],
     with_objects w1
       (objects w
        ++ [set_score (deref (objects w) 0%nat)
              (inner_product (l2_normalize [1; 2]) (l2_normalize [3; 4]))])).
Proof.
  apply (add_then_search_finds_it
           (with_objects (initial no_files) (objects after_notes))
           2 [3; 4] [1; 2] 0%nat 5);
    [reflexivity|cbn; lia|lia|reflexivity|reflexivity].
Defined.

Lemma search_result_count_witness :
  ∃ out w', search {| ncols := 1; rows := [[5]] |} 5 after_memo = (Ok out, w') ∧
            len out
            = Z.min 5 (len (List.filter
                              (λ v, score_ltb lowest (inner_product (l2_normalize [5]) v))
                              [[27]; [17]])).
Proof.
  apply (search_result_count after_memo {| d := 1; xb := [[27]; [17]] |}
           {| ncols := 1; rows := [[5]] |} [5] [] 5);
    [reflexivity|reflexivity|lia|reflexivity|reflexivity|reflexivity].
Defined.

Lemma query_answers_are_scored_copies_witness :
  ∃ answers w',
    query_endpoint {| query := U "guidance"; top_k := 1 |} after_memo
    = (Ok answers, w') ∧
    Forall (λ a, ∃ l sc, l ∈ metadata (store after_memo) ∧
                         a = set_score (deref (objects after_memo) l) sc ∧
                         deref (objects w') l = deref (objects after_memo) l) answers.
Proof.
  eexists _, _. split; [vm_compute; reflexivity|].
  eapply (query_answers_are_scored_copies {| query := U "guidance"; top_k := 1 |} after_memo);
    [repeat constructor|vm_compute; reflexivity].
Defined.

Lemma world_stays_well_formed_witness :
  well_formed (load after_notes).2 ∧
  well_formed (save after_notes).2 ∧
  (∀ embs metas, Forall (λ l, l < length (objects after_notes))%nat metas →
                 well_formed (add embs metas after_notes).2) ∧
  (∀ files, well_formed (ingest files after_notes).2) ∧
  (∀ urls, well_formed (ingest_urls urls after_notes).2) ∧
  (∀ req, well_formed (query_endpoint req after_notes).2) ∧
  (∀ n, well_formed (get_meta n after_notes).2).
Proof. apply (world_stays_well_formed after_notes). repeat constructor. Defined.

(** ** The notification hub *)

(** X20: a second [connect] under the same client id replaces the first
    socket: a message sent afterwards goes to the second socket only, and
    the registrations of other client ids are untouched. *)
Theorem ws_last_connect_wins (c : list N) (s1 s2 : nat) (msg : IngestionEvent)
    (m : WSManager) :
  let m' := ws_send c msg (ws_connect c s2 (ws_connect c s1 m)) in
  wire m' = wire m ++ [(s1, Accept); (s2, Accept); (s2, SendJson msg)] ∧
  active m' !! c = Some s2 ∧
  (∀ c', c' ≠ c → active m' !! c' = active m !! c').
Proof.
  cbn zeta. unfold ws_send, ws_connect. cbn [active wire].
  rewrite lookup_insert_eq. cbn [active wire].
  split; [by rewrite <- !app_assoc|]. split; [by rewrite lookup_insert_eq|].
  intros c' Hc. by rewrite !lookup_insert_ne.
Qed.

(** X21: [disconnect] never fails, also for an id that is not
    registered, and after it a [send] to that id does nothing.  It removes
    whatever socket is registered under the id: when a client has
    reconnected under its id and the older session then ends, the newer
    socket is no longer reached either. *)
Theorem ws_disconnect_silences (c : list N) (s1 s2 : nat) (msg : IngestionEvent)
    (m : WSManager) :
  ws_send c msg (ws_disconnect c m) = ws_disconnect c m ∧
  (active m !! c = None → ws_disconnect c m = m) ∧
  ws_disconnect c (ws_disconnect c m) = ws_disconnect c m ∧
  ws_send c msg (ws_disconnect c (ws_connect c s2 (ws_connect c s1 m)))
  = ws_disconnect c (ws_connect c s2 (ws_connect c s1 m)).
Proof.
  assert (∀ m0, ws_send c msg (ws_disconnect c m0) = ws_disconnect c m0) as Hs.
  { intros m0. unfold ws_send, ws_disconnect. cbn [active].
    by rewrite lookup_delete_eq. }
  split; [apply Hs|]. split; [|split; [|apply Hs]].
  - intros Hn. unfold ws_disconnect. rewrite delete_id by done. by destruct m.
  - unfold ws_disconnect. cbn [active wire]. by rewrite delete_delete_eq.
Qed.

Lemma notify_all_none (msgs : list IngestionEvent) (m : WSManager) (x : option (list N)) :
  (x = None ∨ x = Some [] ∨ ∃ c, x = Some c ∧ active m !! c = None) →
  notify_all x msgs m = m.
Proof.
  intros Hx. unfold notify_all. induction msgs as [|msg msgs IH]; [done|].
  cbn [foldl]. enough (notify x msg m = m) as -> by exact IH.
  destruct Hx as [->|[->|(c & -> & Hc)]]; [done..|].
  unfold notify, ws_send. destruct c; [done|]. by rewrite Hc.
Qed.

(** X22: the messages of a batch reach the socket registered under the
    request's client id, in order and nothing else; without the header,
    with an empty one, or with an id that is not registered, nothing is
    sent and nothing is kept for later. *)
Theorem notify_all_delivery (c : list N) (s : nat) (msgs : list IngestionEvent)
    (m : WSManager) :
  (c ≠ [] → active m !! c = Some s →
   notify_all (Some c) msgs m
   = {| active := active m;
        wire := wire m ++ ((λ msg, (s, SendJson msg)) <$> msgs) |}) ∧
  notify_all None msgs m = m ∧
  notify_all (Some []) msgs m = m ∧
  (active m !! c = None → notify_all (Some c) msgs m = m).
Proof.
  split; [|repeat split; intros; apply notify_all_none; eauto].
  intros Hc Hs. unfold notify_all. revert m Hs.
  induction msgs as [|msg msgs IH]; intros m Hs.
  { cbn. rewrite app_nil_r. by destruct m. }
  cbn [foldl]. unfold notify at 2, ws_send. destruct c as [|c0 c]; [done|].
  rewrite Hs. rewrite IH by done. cbn [active wire].
  by rewrite fmap_cons, <- app_assoc.
Qed.

Lemma notify_all_delivery_witness :
  notify_all (Some (U "tab-1")) [file_start (U "a.txt"); ingest_done 0]
    (ws_connect (U "tab-1") 7 {| active := ∅; wire := [] |})
  = {| active := active (ws_connect (U "tab-1") 7 {| active := ∅; wire := [] |});
       wire := wire (ws_connect (U "tab-1") 7 {| active := ∅; wire := [] |})
               ++ ((λ msg, (7%nat, SendJson msg))
                   <$> [file_start (U "a.txt"); ingest_done 0]) |}.
Proof.
  apply (proj1 (notify_all_delivery (U "tab-1") 7
                  [file_start (U "a.txt"); ingest_done 0]
                  (ws_connect (U "tab-1") 7 {| active := ∅; wire := [] |})));
    [discriminate|apply lookup_insert_eq].
Defined.

(** ** The messages of a batch *)

Section event_facts.
Context {scalar : Type} `{Float32 scalar} `{Collaborators scalar}.
Implicit Types (w : world scalar).

Lemma ingest_as_loop (files : list (UploadFile * N)) w :
  (ingest files w).1 = (ingest_loop files 0 w).1.
Proof.
  unfold ingest. rewrite bind_save_run. by destruct (ingest_loop files 0 w) as [[n|e] w1].
Qed.

Lemma ingest_urls_as_loop (urls : list (list N * N)) w :
  (ingest_urls urls w).1 = (ingest_urls_loop urls 0 w).1.
Proof.
  unfold ingest_urls. rewrite bind_save_run.
  by destruct (ingest_urls_loop urls 0 w) as [[n|e] w1].
Qed.

Lemma ingest_url_no_text (u : list N) ts w :
  has_text u = false → ingest_url u ts w = (Ok 0, w).
Proof.
  unfold has_text, url_text, ingest_url.
  by destruct (match fetch_url u with Some ((_ :: _) as h) => extract h | _ => None end)
    as [[|c text]|].
Qed.

Lemma ingest_loop_events_ok (files : list (UploadFile * N)) acc w n w' :
  ingest_loop files acc w = (Ok n, w') →
  ∃ ks, length ks = length files ∧
        ingest_loop_events files w
        = concat (zip_with (λ f k, [file_start (filename f.1); file_done (filename f.1) k])
                    files ks) ∧
        n = acc + foldr Z.add 0 ks.
Proof.
  revert acc w. induction files as [|[f ts] files IH]; intros acc w.
  { intros [= <- <-]. exists []. cbn. repeat split; lia. }
  cbn [ingest_loop ingest_loop_events]. unfold bind.
  destruct (ingest_file f ts w) as [[k|e] w1]; [|done].
  intros (ks & Hl & -> & ->)%IH. exists (k :: ks). cbn. repeat split; [lia|lia].
Qed.

Lemma ingest_urls_loop_events_ok (urls : list (list N * N)) acc w n w' :
  ingest_urls_loop urls acc w = (Ok n, w') →
  ∃ ks, length ks = length urls ∧
        ingest_urls_loop_events urls w
        = concat (zip_with (λ u k, [url_start u.1;
                                    if has_text u.1 then url_done u.1 k
                                    else url_error u.1])
                    urls ks) ∧
        n = acc + foldr Z.add 0 ks.
Proof.
  revert acc w. induction urls as [|[u ts] urls IH]; intros acc w.
  { intros [= <- <-]. exists []. cbn. repeat split; lia. }
  cbn [ingest_urls_loop ingest_urls_loop_events]. unfold bind.
  destruct (has_text u) eqn:Ht.
  - destruct (ingest_url u ts w) as [[k|e] w1]; [|done].
    intros (ks & Hl & -> & ->)%IH. exists (k :: ks). cbn. rewrite Ht.
    repeat split; [lia|lia].
  - rewrite ingest_url_no_text by done.
    intros (ks & Hl & -> & ->)%IH. exists (0 :: ks). cbn. rewrite Ht.
    repeat split; [lia|lia].
Qed.

(** The loop and its messages after a run of items that returned. *)
Lemma ingest_loop_app (done rest : list (UploadFile * N)) acc w n w1 :
  ingest_loop done acc w = (Ok n, w1) →
  ingest_loop (done ++ rest) acc w = ingest_loop rest n w1 ∧
  ingest_loop_events (done ++ rest) w
  = ingest_loop_events done w ++ ingest_loop_events rest w1.
Proof.
  revert acc w. induction done as [|[f ts] done IH]; intros acc w.
  { by intros [= <- <-]. }
  cbn [app ingest_loop ingest_loop_events]. unfold bind.
  destruct (ingest_file f ts w) as [[k|e] w2]; [|done].
  intros [-> ->]%(IH (acc + k) w2). done.
Qed.

Lemma ingest_urls_loop_app (done rest : list (list N * N)) acc w n w1 :
  ingest_urls_loop done acc w = (Ok n, w1) →
  ingest_urls_loop (done ++ rest) acc w = ingest_urls_loop rest n w1 ∧
  ingest_urls_loop_events (done ++ rest) w
  = ingest_urls_loop_events done w ++ ingest_urls_loop_events rest w1.
Proof.
  revert acc w. induction done as [|[u ts] done IH]; intros acc w.
  { by intros [= <- <-]. }
  cbn [app ingest_urls_loop ingest_urls_loop_events]. unfold bind.
  destruct (has_text u) eqn:Ht.
  - destruct (ingest_url u ts w) as [[k|e] w2]; [|done].
    intros [-> ->]%(IH (acc + k) w2). done.
  - rewrite ingest_url_no_text by done.
    intros [-> ->]%(IH (acc + 0) w). done.
Qed.

(** X23: the messages of a batch that returns [added = n]: for each
    item in order its start message and then its outcome ([file_done] or
    [url_done] with the item's count, [url_error] for a URL without text),
    and last [ingest_done] with [n], which is the sum of the items'
    counts. *)
Theorem events_of_a_returning_batch w (files : list (UploadFile * N))
    (urls : list (list N * N)) (n : Z) :
  ((ingest files w).1 = Ok n →
   ∃ ks, length ks = length files ∧
         ingest_events files w
         = concat (zip_with (λ f k, [file_start (filename f.1);
                                     file_done (filename f.1) k]) files ks)
           ++ [ingest_done n] ∧
         n = foldr Z.add 0 ks) ∧
  ((ingest_urls urls w).1 = Ok n →
   ∃ ks, length ks = length urls ∧
         ingest_urls_events urls w
         = concat (zip_with (λ u k, [url_start u.1;
                                     if has_text u.1 then url_done u.1 k
                                     else url_error u.1]) urls ks)
           ++ [ingest_done n] ∧
         n = foldr Z.add 0 ks).
Proof.
  split; intros En.
  - unfold ingest_events. destruct (ingest files w) as [r wf] eqn:Ei.
    cbn in En. subst r. pose proof (ingest_as_loop files w) as El.
    rewrite Ei in El. cbn in El.
    destruct (ingest_loop files 0 w) as [r w1] eqn:E1. cbn in El. subst r.
    destruct (ingest_loop_events_ok _ _ _ _ _ E1) as (ks & Hl & -> & Hn).
    exists ks. repeat split; [done|lia].
  - unfold ingest_urls_events. destruct (ingest_urls urls w) as [r wf] eqn:Ei.
    cbn in En. subst r. pose proof (ingest_urls_as_loop urls w) as El.
    rewrite Ei in El. cbn in El.
    destruct (ingest_urls_loop urls 0 w) as [r w1] eqn:E1. cbn in El. subst r.
    destruct (ingest_urls_loop_events_ok _ _ _ _ _ E1) as (ks & Hl & -> & Hn).
    exists ks. repeat split; [done|lia].
Qed.

(** X24: when the items before an item have been processed to their
    end and the processing of that item raises (its extraction, chunking,
    embedding or [add]), the batch raises that exception and leaves the
    world as the item left it; the messages are those of the items before,
    then the start message of the item that raised: it gets no outcome
    message, no later item is started, and there is no [ingest_done]. *)
Theorem events_when_an_item_raises w :
  (∀ (done rest : list (UploadFile * N)) f ts n w1 e wr,
     ingest_loop done 0 w = (Ok n, w1) →
     ingest_file f ts w1 = (Raise e, wr) →
     ingest (done ++ (f, ts) :: rest) w = (Raise e, wr) ∧
     ingest_events (done ++ (f, ts) :: rest) w
     = ingest_loop_events done w ++ [file_start (filename f)]) ∧
  (∀ (done rest : list (list N * N)) u ts n w1 e wr,
     ingest_urls_loop done 0 w = (Ok n, w1) →
     ingest_url u ts w1 = (Raise e, wr) →
     ingest_urls (done ++ (u, ts) :: rest) w = (Raise e, wr) ∧
     ingest_urls_events (done ++ (u, ts) :: rest) w
     = ingest_urls_loop_events done w ++ [url_start u]).
Proof.
  split.
  - intros done rest f ts n w1 e wr Hdone Hf.
    destruct (ingest_loop_app done ((f, ts) :: rest) 0 w n w1 Hdone) as [El Ee].
    assert (ingest (done ++ (f, ts) :: rest) w = (Raise e, wr)) as Ei.
    { unfold ingest. rewrite bind_save_run, El. cbn [ingest_loop]. unfold bind.
      by rewrite Hf. }
    split; [exact Ei|]. unfold ingest_events. rewrite Ei, Ee, app_nil_r.
    cbn [ingest_loop_events]. by rewrite Hf.
  - intros done rest u ts n w1 e wr Hdone Hu.
    destruct (ingest_urls_loop_app done ((u, ts) :: rest) 0 w n w1 Hdone) as [El Ee].
    assert (has_text u = true) as Ht.
    { destruct (has_text u) eqn:Ht; [done|].
      by rewrite ingest_url_no_text in Hu by done. }
    assert (ingest_urls (done ++ (u, ts) :: rest) w = (Raise e, wr)) as Ei.
    { unfold ingest_urls. rewrite bind_save_run, El. cbn [ingest_urls_loop].
      unfold bind. by rewrite Hu. }
    split; [exact Ei|]. unfold ingest_urls_events. rewrite Ei, Ee, app_nil_r.
    cbn [ingest_urls_loop_events]. by rewrite Ht, Hu.
Qed.

Lemma ingest_urls_loop_skip_failed (urls : list (list N * N)) acc w :
  ingest_urls_loop (List.filter (λ x, has_text x.1) urls) acc w
  = ingest_urls_loop urls acc w.
Proof.
  revert acc w. induction urls as [|[u ts] urls IH]; intros acc w; [done|].
  cbn [List.filter fst]. destruct (has_text u) eqn:Ht.
  - cbn [ingest_urls_loop]. unfold bind.
    destruct (ingest_url u ts w) as [[k|e] w1]; [apply IH|done].
  - cbn [ingest_urls_loop]. unfold bind. rewrite ingest_url_no_text by done.
    by rewrite Z.add_0_r.
Qed.

(** X16: a URL for which no text is obtained (the fetch fails, or the
    extraction gives nothing or the empty string) changes neither the
    response nor the world: the batch without such URLs does the same. *)
Theorem failed_urls_are_skipped (urls : list (list N * N)) w :
  ingest_urls (List.filter (λ x, has_text x.1) urls) w = ingest_urls urls w.
Proof.
  unfold ingest_urls. by rewrite !bind_save_run, ingest_urls_loop_skip_failed.
Qed.
End event_facts.

Lemma events_of_a_returning_batch_witness :
  ∃ ks, length ks = 2%nat ∧
        ingest_events [(notes_txt, 100%N); (memo_txt, 101%N)] (initial no_files)
        = concat (zip_with (λ f k, [file_start (filename f.1);
                                    file_done (filename f.1) k])
                    [(notes_txt, 100%N); (memo_txt, 101%N)] ks)
          ++ [ingest_done 2] ∧
        2 = foldr Z.add 0 ks.
Proof.
  apply (proj1 (events_of_a_returning_batch (initial no_files)
                  [(notes_txt, 100%N); (memo_txt, 101%N)] [] 2)).
  vm_compute. reflexivity.
Defined.

Lemma events_when_an_item_raises_witness :
  ingest ([(notes_txt, 100%N)] ++ (report_pdf, 101%N) :: [(memo_txt, 102%N)])
    (initial no_files)
  = (Raise ExtractorError, after_ingest_loop_notes) ∧
  ingest_events ([(notes_txt, 100%N)] ++ (report_pdf, 101%N) :: [(memo_txt, 102%N)])
    (initial no_files)
  = ingest_loop_events [(notes_txt, 100%N)] (initial no_files)
    ++ [file_start (filename report_pdf)].
Proof.
  apply (proj1 (events_when_an_item_raises (initial no_files))
           [(notes_txt, 100%N)] [(memo_txt, 102%N)] report_pdf 101%N 1
           after_ingest_loop_notes ExtractorError after_ingest_loop_notes);
    vm_compute; reflexivity.
Defined.

Lemma ingest_saves_only_at_the_end_witness :
  disk (ingest_loop [(notes_txt, 100%N); (report_pdf, 101%N)] 0 (initial no_files)).2
  = disk (initial no_files).
Proof.
  apply (proj1 (ingest_saves_only_at_the_end (initial no_files)
                  [(notes_txt, 100%N); (report_pdf, 101%N)] [])).
Defined.

(** The events of the three-file batch above, run. *)
Example events_when_an_item_raises_run :
  ingest_events [(notes_txt, 100%N); (report_pdf, 101%N); (memo_txt, 102%N)]
    (initial no_files)
  = [file_start (U "notes.txt"); file_done (U "notes.txt") 1;
     file_start (U "Report.PDF")].
Proof. vm_compute. reflexivity. Qed.

(** ** The records an item adds *)

Section item_records.
Context {scalar : Type} `{Float32 scalar} `{Collaborators scalar}.
Implicit Types (w : world scalar).

Hypothesis encode_one_row_per_text :
  ∀ parts : list (list N), length (rows (encode parts)) = length parts.

Lemma embed_and_add_records (t u : option (list N)) p ts (parts : list (list N))
    w n w' :
  embed_and_add t u p ts parts w = (Ok n, w') →
  n = len parts ∧ added_records w w' = build_metas t u p ts parts.
Proof.
  rewrite embed_and_add_run.
  set (vs := build_metas (scalar:=scalar) t u p ts parts).
  assert (length vs = length parts) as Hvs by apply length_imap.
  destruct (add_outcomes (encode parts) (seq (length (objects w)) (length vs))
              (with_objects w (objects w ++ vs)))
    as [[Er ->]|[->|(s & -> & Hm & _)]]; [| done |].
  - intros [= <- <-]. split; [done|].
    pose proof (encode_one_row_per_text parts) as He. rewrite Er in He.
    destruct vs; [|cbn in *; lia].
    unfold added_records, with_objects. cbn [store objects].
    by rewrite drop_all.
  - intros [= <- <-]. split; [done|].
    unfold added_records, with_store, with_objects in *. cbn [store objects] in *.
    by rewrite Hm, drop_app_length, deref_seq_new.
Qed.

(** X26: a CSV upload gives one record per row of the table, whatever
    the length of the row: record [i] has the file name as title, no URL,
    the chunk id [f"{name}_{ts}_{i}"], and as text the row rendered as
    [column: value] pairs joined by [" | "]. *)
Theorem csv_rows_become_records (f : UploadFile) (ts : N)
    (df : list (list N) * list (list (list N))) w n w' :
  endswith (lower (filename f)) (U ".pdf") = false →
  endswith (lower (filename f)) (U ".csv") = true →
  read_csv (content f) = Ok df →
  ingest_file f ts w = (Ok n, w') →
  n = len df.2 ∧
  added_records w w'
  = imap (λ i row,
            {| title := Some (filename f); url := None;
               chunk_id := chunk_id_of (filename f) ts i;
               text := join (U " | ") (zip_with (λ c v, c ++ U ": " ++ v) df.1 row);
               score := None |}) df.2.
Proof.
  intros Hpdf Hcsv Hdf. unfold ingest_file. rewrite Hpdf, Hcsv.
  unfold bind at 1, lift at 1. rewrite Hdf.
  intros [-> ->]%embed_and_add_records. unfold len, csv_rows, build_metas.
  rewrite length_fmap. split; [done|]. by rewrite imap_fmap.
Qed.

(** X27: a URL with text gives one record per chunk of its text, cut
    with the configured size and overlap: record [i] has no title, the URL,
    the chunk id [f"url_{ts}_{i}"] and the chunk as text. *)
Theorem url_chunks_become_records (u : list N) (ts : N) w n w' :
  has_text u = true →
  ingest_url u ts w = (Ok n, w') →
  ∃ t parts,
    url_text u = Some t ∧
    split_text t CHUNK_SIZE CHUNK_OVERLAP = Ok parts ∧
    n = len parts ∧
    added_records w w'
    = imap (λ i part,
              {| title := None; url := Some u;
                 chunk_id := chunk_id_of (U "url") ts i;
                 text := part; score := None |}) parts.
Proof.
  unfold has_text, url_text, ingest_url.
  destruct (match fetch_url u with Some ((_ :: _) as h) => extract h | _ => None end)
    as [[|c t]|]; [done| |done].
  intros _. unfold ingest_text, bind, lift.
  destruct (split_text (c :: t) CHUNK_SIZE CHUNK_OVERLAP) as [parts|e] eqn:Es; [|done].
  intros [-> ->]%embed_and_add_records. by exists (c :: t), parts.
Qed.

(** X28: an upload that is neither PDF nor CSV gives one record per chunk
    of its leniently decoded content: record [i] has the file name as
    title, no URL, the chunk id [f"{name}_{ts}_{i}"] and the chunk as
    text. *)
Theorem text_file_chunks_become_records (f : UploadFile) (ts : N) w n w' :
  endswith (lower (filename f)) (U ".pdf") = false →
  endswith (lower (filename f)) (U ".csv") = false →
  ingest_file f ts w = (Ok n, w') →
  ∃ t parts,
    utf8_decode ignore (content f) = Ok t ∧
    split_text t CHUNK_SIZE CHUNK_OVERLAP = Ok parts ∧
    n = len parts ∧
    added_records w w'
    = imap (λ i part,
              {| title := Some (filename f); url := None;
                 chunk_id := chunk_id_of (filename f) ts i;
                 text := part; score := None |}) parts.
Proof.
  intros Hpdf Hcsv. unfold ingest_file. rewrite Hpdf, Hcsv.
  unfold bind at 1, lift at 1.
  destruct (utf8_decode ignore (content f)) as [t|e] eqn:Ed; [|done].
  unfold ingest_text, bind, lift.
  destruct (split_text t CHUNK_SIZE CHUNK_OVERLAP) as [parts|e] eqn:Es; [|done].
  intros [-> ->]%embed_and_add_records. by exists t, parts.
Qed.
End item_records.

Section append_only.
Context {scalar : Type} `{Float32 scalar}.
Implicit Types (w : world scalar).

(** X25: once the store has an index, [add] keeps its dimension and the
    store's [dim], and only ever appends: the vectors and the records
    present before the call are still there, in place, after it. *)
Theorem add_is_append_only w (ix : IndexFlatIP scalar) (embs : ndarray scalar)
    (metas : list loc) :
  index (store w) = Some ix →
  ∃ ix', index (store (add embs metas w).2) = Some ix' ∧
         d ix' = d ix ∧
         dim (store (add embs metas w).2) = dim (store w) ∧
         xb ix `prefix_of` xb ix' ∧
         metadata (store w) `prefix_of` metadata (store (add embs metas w).2).
Proof.
  intros Hi. destruct (decide (rows embs = [])) as [E|E].
  { rewrite add_no_rows by done. exists ix. by repeat split. }
  destruct (decide (ncols embs = d ix)) as [Hd|Hd].
  - rewrite (add_match _ _ _ ix) by done. eexists. cbn.
    repeat split; by eexists.
  - rewrite (add_mismatch _ _ _ ix) by done. exists ix. by repeat split.
Qed.
End append_only.

Lemma add_is_append_only_witness :
  ∃ ix', index (store (add {| ncols := 1; rows := [[9]] |} [0%nat] after_notes).2)
         = Some ix' ∧
         d ix' = 1%nat ∧
         dim (store (add {| ncols := 1; rows := [[9]] |} [0%nat] after_notes).2)
         = dim (store after_notes) ∧
         [[27]] `prefix_of` xb ix' ∧
         metadata (store after_notes)
         `prefix_of` metadata (store (add {| ncols := 1; rows := [[9]] |} [0%nat]
                                        after_notes).2).
Proof.
  apply (add_is_append_only after_notes {| d := 1; xb := [[27]] |}
           {| ncols := 1; rows := [[9]] |} [0%nat]). reflexivity.
Defined.

Lemma url_chunks_become_records_witness :
  ∃ t parts,
    url_text (scalar:=Z) (U "https://a.example/q3") = Some t ∧
    split_text t CHUNK_SIZE CHUNK_OVERLAP = Ok parts ∧
    1 = len parts ∧
    added_records after_notes
      (ingest_url (U "https://a.example/q3") 170%N after_notes).2
    = imap (λ i part,
              {| title := None; url := Some (U "https://a.example/q3");
                 chunk_id := chunk_id_of (U "url") 170%N i;
                 text := part; score := None |}) parts.
Proof.
  apply (url_chunks_become_records length_embedder_one_row_per_text
           (U "https://a.example/q3") 170%N after_notes 1
           (ingest_url (U "https://a.example/q3") 170%N after_notes).2);
    vm_compute; reflexivity.
Defined.

Lemma text_file_chunks_become_records_witness :
  ∃ t parts,
    utf8_decode ignore (content memo_txt) = Ok t ∧
    split_text t CHUNK_SIZE CHUNK_OVERLAP = Ok parts ∧
    1 = len parts ∧
    added_records after_notes (ingest_file memo_txt 160%N after_notes).2
    = imap (λ i part,
              {| title := Some (filename memo_txt); url := None;
                 chunk_id := chunk_id_of (filename memo_txt) 160%N i;
                 text := part; score := None |}) parts.
Proof.
  apply (text_file_chunks_become_records length_embedder_one_row_per_text
           memo_txt 160%N after_notes 1 (ingest_file memo_txt 160%N after_notes).2);
    vm_compute; reflexivity.
Defined.

Lemma csv_rows_become_records_witness :
  2 = len [[U "ACME"; U "10.5"]; [U "INIT"; U "7"]] ∧
  added_records after_notes
    (ingest_file (H0 := with_price_table) prices_csv 180%N after_notes).2
  = imap (λ i row,
            {| title := Some (filename prices_csv); url := None;
               chunk_id := chunk_id_of (filename prices_csv) 180%N i;
               text := join (U " | ")
                         (zip_with (λ c v, c ++ U ": " ++ v)
                            [U "ticker"; U "price"] row);
               score := None |})
      [[U "ACME"; U "10.5"]; [U "INIT"; U "7"]].
Proof.
  apply (csv_rows_become_records (H0 := with_price_table)
           (λ parts, length_fmap _ parts) prices_csv 180%N
           ([U "ticker"; U "price"], [[U "ACME"; U "10.5"]; [U "INIT"; U "7"]])
           after_notes 2
           (ingest_file (H0 := with_price_table) prices_csv 180%N after_notes).2);
    vm_compute; reflexivity.
Defined.

(** The texts of the two records of the table. *)
Example csv_rows_texts :
  text <$> added_records after_notes
             (ingest_file (H0 := with_price_table) prices_csv 180%N after_notes).2
  = [U "ticker: ACME | price: 10.5"; U "ticker: INIT | price: 7"].
Proof. vm_compute. reflexivity. Qed.
